(** * Sliding-window rate limiter (package postfix): model and properties

    A shallow embedding of the rate limiter of package [postfix]: the
    per-sender token ([RatelimitToken]), the registry ([RatelimitTokenMap])
    and the window controller ([RatelimitSlidingWindow]).

    - Go's [int] is a 64-bit two's-complement integer: it is a [Z] with the
      wrap-around written out ([wrap]).
    - [time.Time] is the instant in nanoseconds since Go's zero time; every
      time the limiter sees comes from [time.Now()], so all share one
      location and map keys are equal exactly when the instants are.
    - Pointers are locations in a heap; [nil] is [None].  A nil dereference
      is a run-time panic: operations live in an error monad ([outcome]) or
      in a state-and-error monad over the heap ([M]).  What the heap holds
      when a panic unwinds is not kept.
    - Receivers are taken not to be nil; the pointers a method reads from
      its receiver (the logger, the registry) may be.
    - Mutexes are not modelled: every operation is taken as one atomic step. *)

From Stdlib Require Import ZArith Ascii String.
From stdpp Require Import gmap strings list fin_maps.

Local Open Scope Z_scope.

(** ** Go's [int] *)

Definition int_min : Z := - 2 ^ 63.
Definition int_max : Z := 2 ^ 63 - 1.

Definition wrap (z : Z) : Z := (z + 2 ^ 63) `mod` 2 ^ 64 - 2 ^ 63.

Definition int_add (a b : Z) : Z := wrap (a + b).
Definition int_sub (a b : Z) : Z := wrap (a - b).
Definition int_mul (a b : Z) : Z := wrap (a * b).

Definition is_int (z : Z) : Prop := int_min ≤ z ≤ int_max.

(** ** Time *)

Abbreviation Time := Z.
Abbreviation Duration := Z.

Definition Second : Duration := 1000000000.
Definition Minute : Duration := 60 * Second.

(** [t.Truncate(d)] for [d > 0]: round down to a multiple of [d] since the
    zero time. *)
Definition Truncate (t : Time) (d : Duration) : Time :=
  if d <=? 0 then t else t - t `mod` d.

(** [t.Before(u)] *)
Definition Before (t u : Time) : bool := t <? u.

(** [t.Add(d)] *)
Definition Add (t : Time) (d : Duration) : Time := t + d.

(** ** Panics *)

Inductive outcome (A : Type) : Type :=
  | Ok (a : A)
  | Panic.
Arguments Ok {A} a.
Arguments Panic {A}.

Global Instance outcome_ret : MRet outcome := λ A a, Ok a.
Global Instance outcome_bind : MBind outcome := λ A B f m,
  match m with
  | Ok a => f a
  | Panic => Panic
  end.

(** ** The logger

    A [*log.Logger] is nil or points to a logger writing to some sink.  The
    text that is logged is of no concern here; that [Println] dereferences
    its receiver is. *)

Inductive Logger : Type :=
  | NilLogger
  | LoggerTo (sink : nat).

Definition Println (l : Logger) : outcome unit :=
  match l with
  | NilLogger => Panic
  | LoggerTo _ => Ok tt
  end.

(** ** RatelimitToken *)

Record RatelimitToken : Type := mkToken {
  key : string;
  tsd : gmap Z Z;
  count : Z;
  sliceCount : Z;
  rlt_logger : Logger
}.

Definition NewRatelimitToken (k : string) : RatelimitToken :=
  {| key := k; tsd := ∅; count := 0; sliceCount := 0; rlt_logger := NilLogger |}.

Definition rlt_SetLogger (l : Logger) (rlt : RatelimitToken) : RatelimitToken :=
  {| key := key rlt; tsd := tsd rlt; count := count rlt;
     sliceCount := sliceCount rlt; rlt_logger := l |}.

Definition Key (rlt : RatelimitToken) : string := key rlt.

Definition Count (rlt : RatelimitToken) : Z := count rlt.

(** [RecordMessage]: the log line comes first, then the bucket of the
    truncated minute is updated or created. *)
Definition RecordMessage (ts : Time) (recips : Z) (rlt : RatelimitToken)
  : outcome RatelimitToken :=
  let keytime := Truncate ts Minute in
  _ ← Println (rlt_logger rlt);
  match tsd rlt !! keytime with
  | Some val =>
      mret {| key := key rlt;
              tsd := <[keytime := int_add val recips]> (tsd rlt);
              count := int_add (count rlt) recips;
              sliceCount := sliceCount rlt;
              rlt_logger := rlt_logger rlt |}
  | None =>
      mret {| key := key rlt;
              tsd := <[keytime := recips]> (tsd rlt);
              count := int_add (count rlt) recips;
              sliceCount := int_add (sliceCount rlt) 1;
              rlt_logger := rlt_logger rlt |}
  end.

(** One iteration of the loop of [Prune] on the entry [(t, val)]. *)
Definition prune_step (lim : Time) (rlt : RatelimitToken) (e : Z * Z)
  : outcome RatelimitToken :=
  let '(t, val) := e in
  if Before t lim then
    _ ← Println (rlt_logger rlt);
    mret {| key := key rlt;
            tsd := delete t (tsd rlt);
            count := int_sub (count rlt) val;
            sliceCount := int_sub (sliceCount rlt) 1;
            rlt_logger := rlt_logger rlt |}
  else mret rlt.

(** The [range] loop over the entries; the only entry deleted while
    ranging is the current one, so the loop sees every entry of the map as
    it was on entry, once, in some order. *)
Fixpoint prune_loop (lim : Time) (es : list (Z * Z)) (rlt : RatelimitToken)
  : outcome RatelimitToken :=
  match es with
  | [] => mret rlt
  | e :: es' => rlt' ← prune_step lim rlt e; prune_loop lim es' rlt'
  end.

Definition Prune (lim : Time) (rlt : RatelimitToken) : outcome RatelimitToken :=
  prune_loop lim (map_to_list (tsd rlt)) rlt.

(** ** RatelimitTokenMap and the heap *)

Abbreviation loc := positive.

Record RatelimitTokenMap : Type := mkTokenMap {
  rlm_tokens : gmap string loc;
  rlm_logger : Logger
}.

(** The heap: the tokens and the registries that have been allocated. *)
Record World : Type := mkWorld {
  token_heap : gmap loc RatelimitToken;
  map_heap : gmap loc RatelimitTokenMap
}.

Definition M (A : Type) : Type := World → outcome (A * World).

Global Instance M_ret : MRet M := λ A a w, Ok (a, w).
Global Instance M_bind : MBind M := λ A B f m w,
  match m w with
  | Ok (a, w') => f a w'
  | Panic => Panic
  end.

Definition lift {A} (o : outcome A) : M A := λ w,
  match o with
  | Ok a => Ok (a, w)
  | Panic => Panic
  end.

(** Dereferencing: nil panics.  A location outside the heap cannot be
    held by a Go program; the model panics there too. *)
Definition load_map (p : option loc) : M (loc * RatelimitTokenMap) := λ w,
  match p with
  | None => Panic
  | Some l =>
      match map_heap w !! l with
      | Some rlm => Ok ((l, rlm), w)
      | None => Panic
      end
  end.

Definition load_token (p : loc) : M RatelimitToken := λ w,
  match token_heap w !! p with
  | Some rlt => Ok (rlt, w)
  | None => Panic
  end.

Definition store_token (p : loc) (rlt : RatelimitToken) : M unit := λ w,
  Ok (tt, {| token_heap := <[p := rlt]> (token_heap w); map_heap := map_heap w |}).

Definition store_map (p : loc) (rlm : RatelimitTokenMap) : M unit := λ w,
  Ok (tt, {| token_heap := token_heap w; map_heap := <[p := rlm]> (map_heap w) |}).

(** [new(RatelimitToken)]: a location that is not in the heap. *)
Definition alloc_token (rlt : RatelimitToken) : M loc := λ w,
  let p := fresh (dom (token_heap w)) in
  Ok (p, {| token_heap := <[p := rlt]> (token_heap w); map_heap := map_heap w |}).

Definition alloc_map (rlm : RatelimitTokenMap) : M loc := λ w,
  let p := fresh (dom (map_heap w)) in
  Ok (p, {| token_heap := token_heap w; map_heap := <[p := rlm]> (map_heap w) |}).

(** A method with a pointer receiver that updates the token in place. *)
Definition update_token (p : loc)
    (f : RatelimitToken → outcome RatelimitToken) : M unit :=
  rlt ← load_token p; rlt' ← lift (f rlt); store_token p rlt'.

Definition NewRatelimitTokenMap : M loc :=
  alloc_map {| rlm_tokens := ∅; rlm_logger := NilLogger |}.

Definition rlm_SetLogger (l : Logger) (p : option loc) : M unit :=
  '(q, rlm) ← load_map p;
  store_map q {| rlm_tokens := rlm_tokens rlm; rlm_logger := l |}.

(** [AddToken]: registers [t], taken not to be nil, under its own key, over
    whatever was there. *)
Definition AddToken (p : option loc) (t : loc) : M unit :=
  '(q, rlm) ← load_map p;
  rlt ← load_token t;
  store_map q {| rlm_tokens := <[Key rlt := t]> (rlm_tokens rlm);
                 rlm_logger := rlm_logger rlm |}.

(** [Token]: the registered token of [k], or a new one that it registers. *)
Definition Token (p : option loc) (k : string) : M loc :=
  '(q, rlm) ← load_map p;
  match rlm_tokens rlm !! k with
  | Some t => mret t
  | None =>
      t ← alloc_token (rlt_SetLogger (rlm_logger rlm) (NewRatelimitToken k));
      _ ← store_map q {| rlm_tokens := <[k := t]> (rlm_tokens rlm);
                         rlm_logger := rlm_logger rlm |};
      mret t
  end.

(** ** The override maps *)

(** Modelled from the spec: the type [MemoryMap] and its methods are not
    among the sources.  The spec asks of the override-map provider a
    synchronous, read-only [get(key) -> (value, found)]; the callers test
    the second component of [Get] against nil.  A [MemoryMap] is a finite
    map from keys to strings, [NewMemoryMap] is the empty one, [mm_Add]
    binds a key and [Get] is the lookup, [None] standing for a non-nil
    error.  The controller's two [*MemoryMap] fields are taken to point to
    a map. *)
Abbreviation MemoryMap := (gmap string string).

Definition NewMemoryMap : MemoryMap := ∅.

Definition mm_Add (k v : string) (m : MemoryMap) : MemoryMap := <[k := v]> m.

Definition Get (m : MemoryMap) (k : string) : option string := m !! k.

(** ** Library functions on strings *)

Definition digit_of (c : ascii) : option Z :=
  let n := Z.of_N (N_of_ascii c) in
  if (48 <=? n) && (n <=? 57) then Some (n - 48) else None.

Fixpoint parse_digits (s : string) (acc : Z) : option Z :=
  match s with
  | EmptyString => Some acc
  | String c s' => d ← digit_of c; parse_digits s' (acc * 10 + d)
  end.

(** [strconv.Atoi]: an optional sign, then one or more decimal digits; a
    value that does not fit [int] is an error. *)
Definition Atoi (s : string) : option Z :=
  let '(neg, ds) :=
    match s with
    | String "-" s' => (true, s')
    | String "+" s' => (false, s')
    | _ => (false, s)
    end in
  match ds with
  | EmptyString => None
  | _ =>
      n ← parse_digits ds 0;
      let v := if neg : bool then - n else n in
      if (int_min <=? v) && (v <=? int_max) then Some v else None
  end.

(** [strings.Split(s, sep)] for a separator of one byte: the pieces between
    the separators, one more than there are separators. *)
Fixpoint Split (s : string) (sep : ascii) : list string :=
  match s with
  | EmptyString => [EmptyString]
  | String c s' =>
      if Ascii.eqb c sep then EmptyString :: Split s' sep
      else
        match Split s' sep with
        | piece :: pieces => String c piece :: pieces
        | [] => [String c EmptyString]
        end
  end.

(** ** RatelimitSlidingWindow *)

Record RatelimitSlidingWindow : Type := mkWindow {
  defaultLimit : Z;
  deferMessage : string;
  interval : Duration;
  whiteList : MemoryMap;
  domainList : MemoryMap;
  rsw_tokens : option loc;
  rsw_logger : Logger
}.

(** The constructor sets the limit and the three pointers; the defer message
    stays empty (its string in the struct declaration is a field tag), the
    interval 0 and the logger nil. *)
Definition NewRatelimitSlidingWindow (w d : MemoryMap) (t : option loc)
  : RatelimitSlidingWindow :=
  {| defaultLimit := 120; deferMessage := EmptyString; interval := 0;
     whiteList := w; domainList := d; rsw_tokens := t;
     rsw_logger := NilLogger |}.

Definition SetDefaultLimit (l : Z) (rsw : RatelimitSlidingWindow)
  : outcome RatelimitSlidingWindow :=
  mret {| defaultLimit := l; deferMessage := deferMessage rsw;
          interval := interval rsw; whiteList := whiteList rsw;
          domainList := domainList rsw; rsw_tokens := rsw_tokens rsw;
          rsw_logger := rsw_logger rsw |}.

Definition rsw_SetLogger (l : Logger) (rsw : RatelimitSlidingWindow)
  : outcome RatelimitSlidingWindow :=
  mret {| defaultLimit := defaultLimit rsw; deferMessage := deferMessage rsw;
          interval := interval rsw; whiteList := whiteList rsw;
          domainList := domainList rsw; rsw_tokens := rsw_tokens rsw;
          rsw_logger := l |}.




Section SetInterval.

(** [time.ParseDuration], of Go's library: the duration a string denotes,
    in nanoseconds, or an error (and then the duration returned is 0). *)
Variable ParseDuration : string → option Duration.

Definition SetInterval (i : string) (rsw : RatelimitSlidingWindow)
  : outcome RatelimitSlidingWindow :=
  let r := ParseDuration (i +:+ "s") in
  let d := default 0 r in
  _ ← (if r is None then Println (rsw_logger rsw) else mret tt);
  mret {| defaultLimit := defaultLimit rsw; deferMessage := deferMessage rsw;
          interval := int_mul d (-1); whiteList := whiteList rsw;
          domainList := domainList rsw; rsw_tokens := rsw_tokens rsw;
          rsw_logger := rsw_logger rsw |}.

End SetInterval.

Definition checkWhiteList (rsw : RatelimitSlidingWindow) (k : string) : bool :=
  match Get (whiteList rsw) k with
  | None => false
  | Some _ => true
  end.

Definition checkDomain (rsw : RatelimitSlidingWindow) (k : string) : bool :=
  match Get (domainList rsw) k with
  | None => false
  | Some _ => true
  end.

Definition getDomainLimit (rsw : RatelimitSlidingWindow) (dom : string)
  : outcome Z :=
  match Get (domainList rsw) dom with
  | None => _ ← Println (rsw_logger rsw); mret 0
  | Some d =>
      match Atoi d with
      | None => _ ← Println (rsw_logger rsw); mret 0
      | Some val => mret val
      end
  end.

(** The two decisions. *)
Definition nl : string := String "010" EmptyString.
Definition permit : string := "action=dunno" +:+ nl +:+ nl.
Definition defer (rsw : RatelimitSlidingWindow) : string :=
  "action=defer_if_permit " +:+ deferMessage rsw +:+ nl +:+ nl.

(** The domain of [RateLimit] (its lines 162 to 168): element 1 of the
    pieces of the sender, when there are at least two. *)
Definition sender_domain (sender : string) : string :=
  let elems := Split sender "@" in
  if (1 <? length elems)%nat then nth 1 elems EmptyString else EmptyString.

(** The limit that applies (lines 165 and 183 to 185). *)
Definition messagelimit (rsw : RatelimitSlidingWindow) (domain : string)
  : outcome Z :=
  if checkDomain rsw domain then getDomainLimit rsw domain
  else mret (defaultLimit rsw).

(** [RateLimit]; [now] is what [time.Now()] returns during the call. *)
Definition RateLimit (rsw : RatelimitSlidingWindow) (sender : string)
    (recips : Z) (now : Time) : M string :=
  let domain := sender_domain sender in
  recips ← lift (if recips =? 0
                 then _ ← Println (rsw_logger rsw); mret (int_add recips 1)
                 else mret recips);
  if checkWhiteList rsw sender then
    _ ← lift (Println (rsw_logger rsw)); mret permit
  else if checkWhiteList rsw domain then
    _ ← lift (Println (rsw_logger rsw)); mret permit
  else
    limit_of_sender ← lift (messagelimit rsw domain);
    token ← Token (rsw_tokens rsw) sender;
    let limit := Add now (interval rsw) in
    _ ← update_token token (Prune limit);
    rlt ← load_token token;
    let tcount := int_add (Count rlt) recips in
    if limit_of_sender <? tcount then
      _ ← lift (Println (rsw_logger rsw)); mret (defer rsw)
    else
      _ ← update_token token (RecordMessage now recips);
      rlt' ← load_token token;
      _ ← lift (Println (rsw_logger rsw));
      mret permit.

(** ** The map file *)

(** [strings.Fields] on a string of ASCII bytes: the words between runs of
    the ASCII white space (tab, line feed, vertical tab, form feed,
    carriage return, space).  On other bytes the library decodes UTF-8 and
    knows more spaces: the properties below are about ASCII lines. *)
Definition is_space (c : ascii) : bool :=
  let n := N_of_ascii c in
  ((9 <=? n) && (n <=? 13) || (n =? 32))%N.

Fixpoint ascii_only (s : string) : bool :=
  match s with
  | EmptyString => true
  | String c s' => (N_of_ascii c <? 128)%N && ascii_only s'
  end.

(** [word] is the word being read, when it is not empty. *)
Fixpoint Fields_from (s : string) (word : string) : list string :=
  match s with
  | EmptyString =>
      match word with
      | EmptyString => []
      | _ => [word]
      end
  | String c s' =>
      if is_space c then
        match word with
        | EmptyString => Fields_from s' EmptyString
        | _ => word :: Fields_from s' EmptyString
        end
      else Fields_from s' (word +:+ String c EmptyString)
  end.

Definition Fields (s : string) : list string := Fields_from s EmptyString.

(** [t[i]] on a slice: out of range is a run-time panic. *)
Definition index (t : list string) (i : nat) : outcome string :=
  match t !! i with
  | Some x => Ok x
  | None => Panic
  end.

(** The loop of [Load] over the lines the scanner yields. *)
Fixpoint load_lines (lines : list string) (res : MemoryMap)
  : outcome MemoryMap :=
  match lines with
  | [] => mret res
  | line :: lines' =>
      let t := Fields line in
      k ← index t 0;
      v ← index t 1;
      load_lines lines' (mm_Add k v res)
  end.

(** [Load]: [file] is what opening and scanning the named file gives, no
    file ([os.Open] fails) or its lines; the result is nil or a map. *)
Definition Load (file : option (list string)) : outcome (option MemoryMap) :=
  match file with
  | None => mret None
  | Some lines => res ← load_lines lines NewMemoryMap; mret (Some res)
  end.

(** * Definitions for the properties *)

(** ** Tokens *)

(** The sum of a list of integers, and of the values of the buckets, in
    the integers. *)
Definition sumZ (l : list Z) : Z := foldr Z.add 0 l.

Definition sum_values (m : gmap Z Z) : Z := sumZ (map_to_list m).*2.

(** The buckets strictly before the cutoff, and those at or after it. *)
Definition stale (lim : Time) (e : Z * Z) : Prop := e.1 < lim.
Definition live (lim : Time) (e : Z * Z) : Prop := lim ≤ e.1.

Global Instance stale_dec lim e : Decision (stale lim e).
Proof. unfold stale. apply _. Defined.
Global Instance live_dec lim e : Decision (live lim e).
Proof. unfold live. apply _. Defined.

(** The invariant of a token: [count] is the sum of the buckets, as the
    program would take it, in [int]. *)
Definition token_inv (rlt : RatelimitToken) : Prop :=
  count rlt = wrap (sum_values (tsd rlt)).

(** A logger that [SetLogger] has set. *)
Definition has_logger (l : Logger) : Prop := l ≠ NilLogger.

(** What [RecordMessage] leaves, when it has a logger to write to. *)
Definition recorded (ts : Time) (recips : Z) (rlt : RatelimitToken)
  : RatelimitToken :=
  let keytime := Truncate ts Minute in
  {| key := key rlt;
     tsd := <[keytime := match tsd rlt !! keytime with
                         | Some val => int_add val recips
                         | None => recips
                         end]> (tsd rlt);
     count := int_add (count rlt) recips;
     sliceCount := match tsd rlt !! keytime with
                   | Some _ => sliceCount rlt
                   | None => int_add (sliceCount rlt) 1
                   end;
     rlt_logger := rlt_logger rlt |}.

(** The loop of [Prune] without its log lines. *)
Definition prune_entry (lim : Time) (rlt : RatelimitToken) (e : Z * Z)
  : RatelimitToken :=
  if Before e.1 lim then
    {| key := key rlt;
       tsd := delete e.1 (tsd rlt);
       count := int_sub (count rlt) e.2;
       sliceCount := int_sub (sliceCount rlt) 1;
       rlt_logger := rlt_logger rlt |}
  else rlt.

Definition pruned (lim : Time) (rlt : RatelimitToken) : RatelimitToken :=
  foldl (prune_entry lim) rlt (map_to_list (tsd rlt)).

(** The operations on a token. *)
Inductive token_op : Type :=
  | OpRecordMessage (ts : Time) (recips : Z)
  | OpPrune (lim : Time)
  | OpSetLogger (l : Logger).

Definition run_op (op : token_op) (rlt : RatelimitToken)
  : outcome RatelimitToken :=
  match op with
  | OpRecordMessage ts recips => RecordMessage ts recips rlt
  | OpPrune lim => Prune lim rlt
  | OpSetLogger l => mret (rlt_SetLogger l rlt)
  end.

(** The states a token can be in: as created, or one completed operation
    after such a state. *)
Inductive reachable : RatelimitToken → Prop :=
  | reachable_new k : reachable (NewRatelimitToken k)
  | reachable_step rlt op rlt' :
      reachable rlt → run_op op rlt = Ok rlt' → reachable rlt'.

(** [RecordMessage] for each call of a list, in order. *)
Fixpoint record_all (calls : list (Time * Z)) (rlt : RatelimitToken)
  : outcome RatelimitToken :=
  match calls with
  | [] => mret rlt
  | c :: calls' => rlt' ← RecordMessage c.1 c.2 rlt; record_all calls' rlt'
  end.

(** The calls whose minute is at or after the cutoff. *)
Definition live_call (cutoff : Time) (c : Time * Z) : Prop :=
  cutoff ≤ Truncate c.1 Minute.

Global Instance live_call_dec cutoff c : Decision (live_call cutoff c).
Proof. unfold live_call. apply _. Defined.

(** ** The registry and the controller *)

(** The heap with the token at [t] replaced. *)
Definition set_token (t : loc) (rlt : RatelimitToken) (w : World) : World :=
  {| token_heap := <[t := rlt]> (token_heap w); map_heap := map_heap w |}.

(** What [Token] returns and leaves, on the registry [rlm] at [q]. *)
Definition Token_result (q : loc) (rlm : RatelimitTokenMap) (k : string)
    (w : World) : loc * World :=
  match rlm_tokens rlm !! k with
  | Some t => (t, w)
  | None =>
      let t := fresh (dom (token_heap w)) in
      (t, {| token_heap :=
               <[t := rlt_SetLogger (rlm_logger rlm) (NewRatelimitToken k)]>
                 (token_heap w);
             map_heap :=
               <[q := {| rlm_tokens := <[k := t]> (rlm_tokens rlm);
                         rlm_logger := rlm_logger rlm |}]> (map_heap w) |})
  end.

(** The location registered for a key. *)
Definition registered (p : option loc) (k : string) (w : World) : option loc :=
  q ← p; rlm ← map_heap w !! q; rlm_tokens rlm !! k.

(** A controller that has been set up, and a heap it can work on: loggers
    everywhere, a registry, and registered tokens that are allocated. *)
Definition ready (rsw : RatelimitSlidingWindow) (w : World) : Prop :=
  has_logger (rsw_logger rsw) ∧
  ∃ q rlm,
    rsw_tokens rsw = Some q ∧ map_heap w !! q = Some rlm ∧
    has_logger (rlm_logger rlm) ∧
    ∀ k t, rlm_tokens rlm !! k = Some t →
           ∃ rlt, token_heap w !! t = Some rlt ∧ has_logger (rlt_logger rlt).

(** The two whitelist tests of [RateLimit] (lines 175 and 179). *)
Definition whitelisted (rsw : RatelimitSlidingWindow) (sender : string) : bool :=
  checkWhiteList rsw sender || checkWhiteList rsw (sender_domain sender).

(** The recipient count after lines 170 to 173. *)
Definition normalized (recips : Z) : Z :=
  if recips =? 0 then int_add recips 1 else recips.

(** The limit [messagelimit] yields when its log lines can be written. *)
Definition effective_limit (rsw : RatelimitSlidingWindow) (domain : string) : Z :=
  match domainList rsw !! domain with
  | Some v => default 0 (Atoi v)
  | None => defaultLimit rsw
  end.

(** ** A controller and a heap to try things on *)

(** A controller that is set up, with a limit of 120 in a window of a
    minute, a whitelist and two domain limits, one of them not a number. *)
Definition example_window : RatelimitSlidingWindow :=
  {| defaultLimit := 120; deferMessage := "rate limit exceeded";
     interval := - 60 * Second;
     whiteList := {[ "boss@x.com" := "ok"; "trusted.org" := "ok" ]};
     domainList := {[ "biz.com" := "5"; "odd.com" := "many" ]};
     rsw_tokens := Some 1%positive; rsw_logger := LoggerTo 0 |}.

Definition example_token : RatelimitToken :=
  {| key := "a@x.com"; tsd := {[ 0 := 5; 600000000000 := 50 ]};
     count := 55; sliceCount := 2; rlt_logger := LoggerTo 0 |}.

Definition example_token_pruned : RatelimitToken :=
  {| key := "a@x.com"; tsd := {[ 600000000000 := 50 ]};
     count := 50; sliceCount := 1; rlt_logger := LoggerTo 0 |}.

Definition example_token_odd : RatelimitToken :=
  {| key := "u@odd.com"; tsd := ∅; count := 0; sliceCount := 0;
     rlt_logger := LoggerTo 0 |}.

(** Its heap: [a@x.com] has sent 5 recipients in minute 0 and 50 in minute
    10, [u@odd.com] is registered and has sent nothing. *)
Definition example_world : World :=
  {| token_heap :=
       {[ 1%positive := example_token; 2%positive := example_token_odd ]};
     map_heap :=
       {[ 1%positive :=
            {| rlm_tokens :=
                 {[ "a@x.com" := 1%positive; "u@odd.com" := 2%positive ]};
               rlm_logger := LoggerTo 0 |} ]} |}.

(** Ten and a half minutes after the zero time. *)
Definition example_now : Time := 630000000000.

(** ** Senders *)

(** The domain in the words of the spec: all that follows the first [@],
    nothing when there is none. *)
Fixpoint after_first_at (s : string) : string :=
  match s with
  | EmptyString => EmptyString
  | String c s' => if Ascii.eqb c "@" then s' else after_first_at s'
  end.

(** What precedes the first [@]: all of the string when there is none. *)
Fixpoint before_first_at (s : string) : string :=
  match s with
  | EmptyString => EmptyString
  | String c s' =>
      if Ascii.eqb c "@" then EmptyString else String c (before_first_at s')
  end.

Fixpoint has_at (s : string) : bool :=
  match s with
  | EmptyString => false
  | String c s' => Ascii.eqb c "@" || has_at s'
  end.

(** ** Get-or-create *)

(** [Token] for each key of a list, in order: the tokens returned. *)
Fixpoint Tokens (p : option loc) (ks : list string) : M (list loc) :=
  match ks with
  | [] => mret []
  | k :: ks' => t ← Token p k; ts ← Tokens p ks'; mret (t :: ts)
  end.

(** A registry whose tokens are allocated, each under one key only and
    carrying that key. *)
Definition registry_ok (q : loc) (w : World) : Prop :=
  ∃ rlm,
    map_heap w !! q = Some rlm
    ∧ (∀ k t, rlm_tokens rlm !! k = Some t →
              ∃ rlt, token_heap w !! t = Some rlt ∧ Key rlt = k).

(** ** More on tokens and heaps *)

(** The second invariant of a token: [sliceCount] is the number of
    buckets, in [int]. *)
Definition slice_inv (rlt : RatelimitToken) : Prop :=
  sliceCount rlt = wrap (Z.of_nat (size (tsd rlt))).

(** A token with no bucket left. *)
Definition emptied (rlt : RatelimitToken) : RatelimitToken :=
  {| key := key rlt; tsd := ∅; count := 0; sliceCount := 0;
     rlt_logger := rlt_logger rlt |}.

(** A heap all of whose tokens are in a state a token can reach. *)
Definition heap_reachable (w : World) : Prop :=
  ∀ t rlt, token_heap w !! t = Some rlt → reachable rlt.

(** The first two fields of a line. *)
Definition key_and_value (line : string) : list string :=
  take 2 (Fields line).

(** A line of ASCII white space only, the empty line for one. *)
Fixpoint blank (s : string) : bool :=
  match s with
  | EmptyString => true
  | String c s' => is_space c && blank s'
  end.

(** A line with fewer than two fields. *)
Definition short_line (line : string) : Prop :=
  (length (Fields line) < 2)%nat.

(** * Properties *)

(** ** Arithmetic of [int] *)

Lemma wrap_is_int z : is_int (wrap z).
Proof.
  unfold is_int, int_min, int_max, wrap.
  pose proof (Z.mod_pos_bound (z + 2 ^ 63) (2 ^ 64) ltac:(lia)). lia.
Qed.

Lemma wrap_id z : is_int z → wrap z = z.
Proof.
  unfold is_int, int_min, int_max, wrap. intros Hz.
  rewrite Z.mod_small by lia. lia.
Qed.

Lemma wrap_add_l a b : wrap (wrap a + b) = wrap (a + b).
Proof.
  unfold wrap. f_equal.
  replace ((a + 2 ^ 63) `mod` 2 ^ 64 - 2 ^ 63 + b + 2 ^ 63)
    with ((a + 2 ^ 63) `mod` 2 ^ 64 + b) by lia.
  rewrite Zplus_mod_idemp_l. f_equal. lia.
Qed.

Lemma wrap_add_r a b : wrap (a + wrap b) = wrap (a + b).
Proof. rewrite (Z.add_comm a), wrap_add_l. f_equal. lia. Qed.

Lemma wrap_sub_l a b : wrap (wrap a - b) = wrap (a - b).
Proof. unfold Z.sub. apply wrap_add_l. Qed.

Lemma wrap_sub_r a b : wrap (a - wrap b) = wrap (a - b).
Proof.
  unfold wrap. f_equal.
  replace (a - ((b + 2 ^ 63) `mod` 2 ^ 64 - 2 ^ 63) + 2 ^ 63)
    with (a + 2 ^ 64 - (b + 2 ^ 63) `mod` 2 ^ 64) by lia.
  rewrite Zminus_mod_idemp_r.
  f_equal. lia.
Qed.

Lemma wrap_wrap z : wrap (wrap z) = wrap z.
Proof. apply wrap_id, wrap_is_int. Qed.

(** ** Sums over the buckets *)

Global Instance sumZ_perm : Proper ((≡ₚ) ==> (=)) sumZ.
Proof.
  intros l1 l2 Hp. unfold sumZ.
  induction Hp; simpl; lia.
Qed.

Lemma sumZ_cons x l : sumZ (x :: l) = x + sumZ l.
Proof. done. Qed.

Lemma sumZ_app l1 l2 : sumZ (l1 ++ l2) = sumZ l1 + sumZ l2.
Proof. unfold sumZ. induction l1; simpl; lia. Qed.

Lemma sum_values_empty : sum_values ∅ = 0.
Proof. unfold sum_values. by rewrite map_to_list_empty. Qed.

Lemma sum_values_insert_new (m : gmap Z Z) k v :
  m !! k = None → sum_values (<[k := v]> m) = v + sum_values m.
Proof.
  intros Hk. unfold sum_values.
  by rewrite (map_to_list_insert m k v Hk).
Qed.

Lemma sum_values_delete (m : gmap Z Z) k v :
  m !! k = Some v → sum_values m = v + sum_values (delete k m).
Proof.
  intros Hk. unfold sum_values.
  by rewrite <- (map_to_list_delete m k v Hk).
Qed.

Lemma sum_values_insert (m : gmap Z Z) k v :
  sum_values (<[k := v]> m) = v + sum_values (delete k m).
Proof.
  rewrite <- insert_delete_eq.
  apply sum_values_insert_new, lookup_delete_eq.
Qed.

(** ** The token invariant *)

Lemma Println_ok l : has_logger l → Println l = Ok tt.
Proof. destruct l; [done|]. by intros _. Qed.

Lemma Println_nil : Println NilLogger = Panic.
Proof. done. Qed.

Lemma RecordMessage_ok ts recips rlt :
  has_logger (rlt_logger rlt) →
  RecordMessage ts recips rlt = Ok (recorded ts recips rlt).
Proof.
  intros Hl. unfold RecordMessage, recorded.
  rewrite (Println_ok _ Hl). simpl.
  by destruct (tsd rlt !! Truncate ts Minute).
Qed.

Lemma RecordMessage_nil ts recips rlt :
  rlt_logger rlt = NilLogger → RecordMessage ts recips rlt = Panic.
Proof. intros Hl. unfold RecordMessage. by rewrite Hl. Qed.

Lemma recorded_inv ts recips rlt :
  token_inv rlt → token_inv (recorded ts recips rlt).
Proof.
  unfold token_inv, recorded. simpl. intros ->.
  rewrite sum_values_insert.
  destruct (tsd rlt !! Truncate ts Minute) as [val|] eqn:Hk.
  - rewrite (sum_values_delete _ _ _ Hk). unfold int_add.
    rewrite wrap_add_l, wrap_add_l. f_equal. lia.
  - rewrite delete_id by done. unfold int_add.
    rewrite wrap_add_l. f_equal. lia.
Qed.

(** ** [Prune] *)

Lemma prune_entry_logger lim rlt e :
  rlt_logger (prune_entry lim rlt e) = rlt_logger rlt.
Proof. unfold prune_entry. by destruct (Before e.1 lim). Qed.

Lemma prune_entry_key lim rlt e : key (prune_entry lim rlt e) = key rlt.
Proof. unfold prune_entry. by destruct (Before e.1 lim). Qed.

Lemma prune_step_ok lim rlt e :
  has_logger (rlt_logger rlt) →
  prune_step lim rlt e = Ok (prune_entry lim rlt e).
Proof.
  intros Hl. unfold prune_step, prune_entry. destruct e as [t val]. simpl.
  destruct (Before t lim); [|done]. by rewrite (Println_ok _ Hl).
Qed.

Lemma prune_loop_ok lim es rlt :
  has_logger (rlt_logger rlt) →
  prune_loop lim es rlt = Ok (foldl (prune_entry lim) rlt es).
Proof.
  revert rlt. induction es as [|e es IH]; intros rlt Hl; [done|].
  simpl. rewrite (prune_step_ok _ _ _ Hl). simpl.
  apply IH. by rewrite prune_entry_logger.
Qed.

Lemma Prune_ok lim rlt :
  has_logger (rlt_logger rlt) → Prune lim rlt = Ok (pruned lim rlt).
Proof. apply prune_loop_ok. Qed.

(** With nothing to remove the loop writes no log line. *)
Lemma prune_loop_none_stale lim es rlt :
  Forall (λ e, ¬ stale lim e) es → prune_loop lim es rlt = Ok rlt.
Proof.
  revert rlt. induction es as [|[t val] es IH]; intros rlt Hes; [done|].
  inversion Hes as [|? ? Hnot Hes']; subst. simpl.
  unfold stale in Hnot; simpl in Hnot. unfold Before.
  destruct (Z.ltb_spec t lim); [lia|]. simpl. by apply IH.
Qed.

(** Without a logger the loop can only end where nothing was removed. *)
Lemma prune_loop_nil lim es rlt rlt' :
  rlt_logger rlt = NilLogger → prune_loop lim es rlt = Ok rlt' → rlt' = rlt.
Proof.
  intros Hl. induction es as [|[t val] es IH]; simpl.
  - by intros [= <-].
  - rewrite Hl. destruct (Before t lim); simpl; [done|]. apply IH.
Qed.

Lemma foldl_prune_logger lim es rlt :
  rlt_logger (foldl (prune_entry lim) rlt es) = rlt_logger rlt.
Proof.
  revert rlt. induction es as [|e es IH]; intros rlt; [done|].
  simpl. by rewrite IH, prune_entry_logger.
Qed.

Lemma foldl_prune_key lim es rlt :
  key (foldl (prune_entry lim) rlt es) = key rlt.
Proof.
  revert rlt. induction es as [|e es IH]; intros rlt; [done|].
  simpl. by rewrite IH, prune_entry_key.
Qed.

Lemma foldl_prune_lookup lim es rlt k :
  tsd (foldl (prune_entry lim) rlt es) !! k
  = if decide (k < lim ∧ k ∈ es.*1) then None else tsd rlt !! k.
Proof.
  revert rlt. induction es as [|[t val] es IH]; intros rlt.
  { simpl. case_decide as H; [|done]. destruct H as [_ H].
    by apply elem_of_nil in H. }
  cbn [foldl]. rewrite IH, fmap_cons. unfold prune_entry, Before. simpl fst.
  destruct (Z.ltb_spec t lim) as [Hlt|Hge]; cbn [tsd].
  - destruct (decide (k = t)) as [->|Hne].
    + rewrite lookup_delete_eq.
      destruct (decide (t < lim ∧ t ∈ es.*1)); case_decide as Hd; try done;
        exfalso; apply Hd; (split; [done|left]).
    + rewrite lookup_delete_ne by done.
      destruct (decide (k < lim ∧ k ∈ es.*1)) as [H1|H1];
        case_decide as H2; try done; exfalso.
      * apply H2. split; [tauto|]. right. tauto.
      * apply H1. destruct H2 as [? H2]. split; [done|].
        apply elem_of_cons in H2 as [?|?]; [congruence|done].
  - destruct (decide (k < lim ∧ k ∈ es.*1)) as [H1|H1];
      case_decide as H2; try done; exfalso.
    + apply H2. split; [tauto|]. right. tauto.
    + apply H1. destruct H2 as [? H2]. split; [done|].
      apply elem_of_cons in H2 as [?|?]; [lia|done].
Qed.

Lemma pruned_tsd lim rlt : tsd (pruned lim rlt) = filter (live lim) (tsd rlt).
Proof.
  apply map_eq. intros k. unfold pruned.
  rewrite foldl_prune_lookup, map_lookup_filter.
  destruct (tsd rlt !! k) as [v|] eqn:Hk; simpl.
  - assert (k ∈ (map_to_list (tsd rlt)).*1) as Hin.
    { apply list_elem_of_fmap. exists (k, v). split; [done|].
      by apply elem_of_map_to_list. }
    unfold live. simpl. case_decide as Hd.
    + rewrite option_guard_False by lia. done.
    + rewrite option_guard_True by (destruct (decide (k < lim)); [tauto|lia]).
      done.
  - by case_decide.
Qed.

Lemma pruned_key lim rlt : key (pruned lim rlt) = key rlt.
Proof. apply foldl_prune_key. Qed.

Lemma pruned_logger lim rlt : rlt_logger (pruned lim rlt) = rlt_logger rlt.
Proof. apply foldl_prune_logger. Qed.

(** The entries still to be visited are those of the map: the loop
    subtracts from [count] what the deleted buckets hold. *)
Lemma foldl_prune_count lim es rlt :
  NoDup es.*1 →
  (∀ k v, (k, v) ∈ es → tsd rlt !! k = Some v) →
  is_int (count rlt) →
  count (foldl (prune_entry lim) rlt es)
  = wrap (count rlt - sumZ (filter (stale lim) es).*2).
Proof.
  revert rlt. induction es as [|[t val] es IH]; intros rlt Hnd Hag Hint.
  { simpl. rewrite Z.sub_0_r. symmetry. by apply wrap_id. }
  rewrite fmap_cons in Hnd. apply NoDup_cons in Hnd as [Hnotin Hnd].
  rewrite filter_cons. cbn [foldl].
  assert (∀ k v, (k, v) ∈ es → k ≠ t) as Hne.
  { intros k v Hin ->. apply Hnotin, list_elem_of_fmap. by exists (t, v). }
  destruct (decide (stale lim (t, val))) as [Hst|Hst];
    unfold stale in Hst; simpl in Hst; unfold prune_entry at 2, Before; simpl fst.
  - destruct (Z.ltb_spec t lim); [|lia].
    rewrite IH; [|done| |apply wrap_is_int].
    + rewrite fmap_cons. cbn [count snd sumZ foldr]. fold (sumZ (filter (stale lim) es).*2).
      unfold int_sub. rewrite wrap_sub_l. f_equal. lia.
    + intros k v Hin. cbn [tsd]. rewrite lookup_delete_ne by (symmetry; eauto).
      apply Hag. by right.
  - destruct (Z.ltb_spec t lim); [lia|].
    apply IH; [done| |done]. intros k v Hin. apply Hag. by right.
Qed.

Lemma map_to_list_filter_perm (P : Z * Z → Prop) `{!∀ e, Decision (P e)}
    (m : gmap Z Z) :
  map_to_list (filter P m) ≡ₚ filter P (map_to_list m).
Proof.
  apply NoDup_Permutation.
  - apply NoDup_map_to_list.
  - apply NoDup_filter, NoDup_map_to_list.
  - intros [k v]. rewrite elem_of_map_to_list, map_lookup_filter_Some.
    rewrite list_elem_of_filter, elem_of_map_to_list. tauto.
Qed.

Lemma sum_values_filter (P : Z * Z → Prop) `{!∀ e, Decision (P e)}
    (m : gmap Z Z) :
  sum_values (filter P m) = sumZ (filter P (map_to_list m)).*2.
Proof. unfold sum_values. by rewrite map_to_list_filter_perm. Qed.

Lemma sumZ_split (P Q : Z * Z → Prop) `{!∀ e, Decision (P e)}
    `{!∀ e, Decision (Q e)} (l : list (Z * Z)) :
  (∀ e, P e ↔ ¬ Q e) →
  sumZ l.*2 = sumZ (filter P l).*2 + sumZ (filter Q l).*2.
Proof.
  intros HPQ. induction l as [|e l IH]; [done|].
  rewrite !filter_cons. specialize (HPQ e).
  destruct (decide (P e)), (decide (Q e)); try tauto;
    rewrite !fmap_cons, !sumZ_cons; lia.
Qed.

Lemma sum_values_split lim (m : gmap Z Z) :
  sum_values m
  = sum_values (filter (live lim) m) + sum_values (filter (stale lim) m).
Proof.
  rewrite !sum_values_filter. apply sumZ_split.
  intros e. unfold live, stale. lia.
Qed.

Lemma pruned_count lim rlt :
  is_int (count rlt) →
  count (pruned lim rlt)
  = wrap (count rlt - sum_values (filter (stale lim) (tsd rlt))).
Proof.
  intros Hint. unfold pruned. rewrite foldl_prune_count.
  - by rewrite sum_values_filter.
  - apply NoDup_fst_map_to_list.
  - intros k v. by rewrite elem_of_map_to_list.
  - done.
Qed.

Lemma token_inv_is_int rlt : token_inv rlt → is_int (count rlt).
Proof. intros ->. apply wrap_is_int. Qed.

Lemma pruned_inv lim rlt : token_inv rlt → token_inv (pruned lim rlt).
Proof.
  intros Hinv. unfold token_inv.
  rewrite pruned_count by by apply token_inv_is_int.
  rewrite pruned_tsd, Hinv, wrap_sub_l. f_equal.
  rewrite (sum_values_split lim (tsd rlt)). lia.
Qed.

(** A token none of whose buckets is older than the cutoff is left as it is. *)
Lemma Prune_nothing_stale lim rlt :
  map_Forall (λ k _, lim ≤ k) (tsd rlt) → Prune lim rlt = Ok rlt.
Proof.
  intros Hall. apply prune_loop_none_stale.
  apply Forall_forall. intros [k v] Hin.
  apply elem_of_map_to_list in Hin. unfold stale. simpl.
  specialize (Hall k v Hin). simpl in Hall. lia.
Qed.

(** ** Sequences of operations on one token *)

Lemma new_token_inv k : token_inv (NewRatelimitToken k).
Proof. unfold token_inv. simpl. by rewrite sum_values_empty. Qed.

Lemma run_op_inv op rlt rlt' :
  token_inv rlt → run_op op rlt = Ok rlt' → token_inv rlt'.
Proof.
  intros Hinv. destruct op as [ts recips|lim|l]; simpl.
  - destruct (rlt_logger rlt) eqn:Hl.
    + by rewrite RecordMessage_nil.
    + rewrite RecordMessage_ok by (unfold has_logger; congruence).
      intros [= <-]. by apply recorded_inv.
  - destruct (rlt_logger rlt) eqn:Hl.
    + intros Hp. by rewrite (prune_loop_nil _ _ _ _ Hl Hp).
    + rewrite Prune_ok by (unfold has_logger; congruence).
      intros [= <-]. by apply pruned_inv.
  - intros [= <-]. done.
Qed.


Lemma record_all_ok calls rlt :
  has_logger (rlt_logger rlt) →
  record_all calls rlt
  = Ok (foldl (λ r c, recorded c.1 c.2 r) rlt calls).
Proof.
  revert rlt. induction calls as [|c calls IH]; intros rlt Hl; [done|].
  simpl. rewrite (RecordMessage_ok _ _ _ Hl). simpl. by apply IH.
Qed.

Lemma foldl_recorded_logger calls rlt :
  rlt_logger (foldl (λ r c, recorded c.1 c.2 r) rlt calls) = rlt_logger rlt.
Proof.
  revert rlt. induction calls as [|c calls IH]; intros rlt; [done|].
  simpl. by rewrite IH.
Qed.

Lemma foldl_recorded_inv calls rlt :
  token_inv rlt → token_inv (foldl (λ r c, recorded c.1 c.2 r) rlt calls).
Proof.
  revert rlt. induction calls as [|c calls IH]; intros rlt Hinv; [done|].
  simpl. by apply IH, recorded_inv.
Qed.

(** What one recorded message adds to the live buckets. *)
Lemma recorded_live_sum cutoff ts recips rlt :
  wrap (sum_values (filter (live cutoff) (tsd (recorded ts recips rlt))))
  = wrap (sum_values (filter (live cutoff) (tsd rlt))
          + if decide (live_call cutoff (ts, recips)) then recips else 0).
Proof.
  unfold recorded, live_call. cbn [tsd fst].
  set (k := Truncate ts Minute). set (m := tsd rlt).
  rewrite map_filter_insert. unfold live at 1. cbn [fst].
  destruct (decide (cutoff ≤ k)) as [Hlive|Hdead].
  - rewrite sum_values_insert.
    destruct (m !! k) as [val|] eqn:Hk.
    + rewrite (sum_values_delete (filter (live cutoff) m) k val)
        by (by apply map_lookup_filter_Some).
      unfold int_add. rewrite wrap_add_l. f_equal. lia.
    + rewrite delete_id by (by rewrite map_lookup_filter, Hk).
      f_equal. lia.
  - rewrite map_filter_delete_not; [f_equal; lia|].
    intros y _. unfold live. simpl. lia.
Qed.

Lemma foldl_recorded_live_sum cutoff calls rlt :
  wrap (sum_values (filter (live cutoff)
          (tsd (foldl (λ r c, recorded c.1 c.2 r) rlt calls))))
  = wrap (sum_values (filter (live cutoff) (tsd rlt))
          + sumZ (filter (live_call cutoff) calls).*2).
Proof.
  revert rlt. induction calls as [|[ts recips] calls IH]; intros rlt.
  { simpl. f_equal. lia. }
  cbn [foldl fst snd]. rewrite IH, filter_cons.
  rewrite <- wrap_add_l, recorded_live_sum, wrap_add_l.
  destruct (decide (live_call cutoff (ts, recips)));
    [rewrite fmap_cons, sumZ_cons|]; f_equal; simpl; lia.
Qed.

Lemma run_op_inv_reachable rlt : reachable rlt → token_inv rlt.
Proof.
  induction 1 as [k|rlt op rlt' _ IH Hop].
  - apply new_token_inv.
  - exact (run_op_inv op rlt rlt' IH Hop).
Qed.

(** C3: the invariant of a token.  The field [count] of a token as created
    is the sum of its buckets (there are none), every [RecordMessage] and
    every [Prune] keeps it so: in every state a token can reach, [count] is
    the sum of the values of the per-minute buckets, the sum being taken as
    the program takes it, in [int]. *)
Theorem token_count_is_sum_of_buckets (rlt : RatelimitToken) :
  reachable rlt → count rlt = wrap (sum_values (tsd rlt)).
Proof.
  induction 1 as [k|rlt op rlt' _ IH Hop].
  - apply new_token_inv.
  - exact (run_op_inv op rlt rlt' IH Hop).
Qed.

Lemma token_count_is_sum_of_buckets_witness :
  let rlt := {| key := "a@x.com"; tsd := {[ 60000000000 := 7 ]}; count := 7;
                sliceCount := 1; rlt_logger := LoggerTo 0 |} in
  reachable rlt ∧ count rlt = wrap (sum_values (tsd rlt)).
Proof.
  intros rlt.
  assert (reachable rlt) as Hr.
  { apply (reachable_step
             {| key := "a@x.com";
                tsd := {[ 0 := 5; 60000000000 := 7 ]}; count := 12;
                sliceCount := 2; rlt_logger := LoggerTo 0 |}
             (OpPrune 60000000000)); [|vm_compute; reflexivity].
    apply (reachable_step
             {| key := "a@x.com"; tsd := {[ 0 := 5 ]}; count := 5;
                sliceCount := 1; rlt_logger := LoggerTo 0 |}
             (OpRecordMessage 61000000000 7)); [|vm_compute; reflexivity].
    apply (reachable_step
             (rlt_SetLogger (LoggerTo 0) (NewRatelimitToken "a@x.com"))
             (OpRecordMessage 1000 5)); [|vm_compute; reflexivity].
    apply (reachable_step (NewRatelimitToken "a@x.com")
             (OpSetLogger (LoggerTo 0))); [|reflexivity].
    apply reachable_new. }
  split; [exact Hr|]. exact (token_count_is_sum_of_buckets rlt Hr).
Defined.

(** Where the buckets do not add up beyond [int], [count] is their sum in
    the integers. *)
Lemma token_count_exact (rlt : RatelimitToken) :
  reachable rlt → is_int (sum_values (tsd rlt)) →
  count rlt = sum_values (tsd rlt).
Proof.
  intros Hr Hint.
  rewrite <- (wrap_id _ Hint). by apply run_op_inv_reachable.
Qed.

(** C2: records, then one prune.  On a token as created (with a logger to
    write to), any list of [RecordMessage] calls followed by [Prune cutoff]
    completes, and then [Count] is the sum, in [int], of the recipient
    counts of exactly the calls whose time truncated to the minute is at or
    after the cutoff.  Equivalently: the buckets that remain are the ones
    whose minute is at or after the cutoff, and [count] has gone down by
    what the buckets strictly before the cutoff held. *)
Theorem prune_after_records_counts_live_calls
    (k : string) (sink : nat) (calls : list (Time * Z)) (cutoff : Time) :
  ∃ rlt rlt',
    record_all calls (rlt_SetLogger (LoggerTo sink) (NewRatelimitToken k))
      = Ok rlt
    ∧ Prune cutoff rlt = Ok rlt'
    ∧ Count rlt' = wrap (sumZ (filter (live_call cutoff) calls).*2)
    ∧ tsd rlt' = filter (live cutoff) (tsd rlt)
    ∧ Count rlt'
      = wrap (Count rlt - sum_values (filter (stale cutoff) (tsd rlt))).
Proof.
  set (rlt0 := rlt_SetLogger (LoggerTo sink) (NewRatelimitToken k)).
  set (rlt := foldl (λ r c, recorded c.1 c.2 r) rlt0 calls).
  assert (has_logger (rlt_logger rlt)) as Hl.
  { unfold rlt. by rewrite foldl_recorded_logger. }
  assert (token_inv rlt) as Hinv.
  { apply foldl_recorded_inv. apply (new_token_inv k). }
  exists rlt, (pruned cutoff rlt). split; [by apply record_all_ok|].
  split; [by apply Prune_ok|]. split; [|split].
  - unfold Count. rewrite (pruned_inv cutoff rlt Hinv), pruned_tsd.
    unfold rlt. rewrite foldl_recorded_live_sum. simpl.
    by rewrite map_filter_empty, sum_values_empty.
  - apply pruned_tsd.
  - apply pruned_count. by apply token_inv_is_int.
Qed.

(** The same in the integers, where the sum stays within [int]. *)
Lemma prune_after_records_exact
    (k : string) (sink : nat) (calls : list (Time * Z)) (cutoff : Time)
    (rlt rlt' : RatelimitToken) :
  is_int (sumZ (filter (live_call cutoff) calls).*2) →
  record_all calls (rlt_SetLogger (LoggerTo sink) (NewRatelimitToken k))
    = Ok rlt →
  Prune cutoff rlt = Ok rlt' →
  Count rlt' = sumZ (filter (live_call cutoff) calls).*2.
Proof.
  intros Hint Hrec Hpr.
  set (rlt0 := rlt_SetLogger (LoggerTo sink) (NewRatelimitToken k)) in *.
  rewrite record_all_ok in Hrec by done. injection Hrec as <-.
  rewrite Prune_ok in Hpr by (by rewrite foldl_recorded_logger).
  injection Hpr as <-.
  unfold Count. rewrite pruned_inv, pruned_tsd.
  - rewrite foldl_recorded_live_sum. simpl.
    rewrite map_filter_empty, sum_values_empty. simpl. by apply wrap_id.
  - apply foldl_recorded_inv. apply (new_token_inv k).
Qed.

(** ** What the operations of a token return *)

Lemma prune_loop_pruned lim es rlt rlt' :
  prune_loop lim es rlt = Ok rlt' → rlt' = foldl (prune_entry lim) rlt es.
Proof.
  revert rlt. induction es as [|[t val] es IH]; intros rlt; simpl.
  { by intros [= <-]. }
  unfold prune_entry, Before. simpl. destruct (t <? lim).
  - destruct (rlt_logger rlt) eqn:Hl; simpl; [done|].
    apply IH.
  - simpl. apply IH.
Qed.

Lemma Prune_pruned lim rlt rlt' : Prune lim rlt = Ok rlt' → rlt' = pruned lim rlt.
Proof. apply prune_loop_pruned. Qed.

Lemma RecordMessage_recorded ts recips rlt rlt' :
  RecordMessage ts recips rlt = Ok rlt' → rlt' = recorded ts recips rlt.
Proof.
  destruct (rlt_logger rlt) eqn:Hl.
  - by rewrite RecordMessage_nil.
  - rewrite RecordMessage_ok by (unfold has_logger; congruence). congruence.
Qed.

Lemma recorded_count ts recips rlt :
  Count (recorded ts recips rlt) = int_add (Count rlt) recips.
Proof. done. Qed.

Lemma pruned_nothing_stale lim rlt :
  map_Forall (λ k _, lim ≤ k) (tsd rlt) → pruned lim rlt = rlt.
Proof.
  intros Hall.
  pose proof (Prune_nothing_stale lim rlt Hall) as Hrun.
  by apply Prune_pruned in Hrun.
Qed.

Lemma Truncate_Minute_bounds (t : Time) :
  t - Minute < Truncate t Minute ≤ t.
Proof.
  unfold Truncate, Minute, Second. simpl.
  pose proof (Z.mod_pos_bound t (60 * 1000000000) ltac:(lia)). lia.
Qed.

(** ** The registry *)

Lemma bind_run {A B} (m : M A) (f : A → M B) w a w' :
  m w = Ok (a, w') → (m ≫= f) w = f a w'.
Proof. intros Hm. unfold mbind, M_bind. by rewrite Hm. Qed.

Lemma bind_panic {A B} (m : M A) (f : A → M B) w :
  m w = Panic → (m ≫= f) w = Panic.
Proof. intros Hm. unfold mbind, M_bind. by rewrite Hm. Qed.

Lemma lift_run {A} (o : outcome A) a w : o = Ok a → lift o w = Ok (a, w).
Proof. by intros ->. Qed.

(** Runs the first action of a sequence, given what it returns. *)
Ltac run_with tac := erewrite bind_run; [|tac].

Lemma Token_ok q rlm k w :
  map_heap w !! q = Some rlm →
  Token (Some q) k w = Ok (Token_result q rlm k w).
Proof.
  intros Hq. unfold Token, Token_result, mbind, M_bind, load_map.
  rewrite Hq. by destruct (rlm_tokens rlm !! k).
Qed.

Lemma Token_registered p k t w :
  registered p k w = Some t → Token p k w = Ok (t, w).
Proof.
  unfold registered. destruct p as [q|]; simpl; [|done].
  destruct (map_heap w !! q) as [rlm|] eqn:Hq; simpl; [|done].
  intros Hk. rewrite (Token_ok q rlm k w Hq). unfold Token_result.
  by rewrite Hk.
Qed.

Lemma Token_nil k w : Token None k w = Panic.
Proof. done. Qed.

Lemma fresh_token_loc (w : World) :
  token_heap w !! fresh (dom (token_heap w)) = None.
Proof. apply not_elem_of_dom, is_fresh. Qed.

Lemma set_token_set t rlt rlt' w :
  set_token t rlt' (set_token t rlt w) = set_token t rlt' w.
Proof. unfold set_token. simpl. by rewrite insert_insert_eq. Qed.

Lemma set_token_id t rlt w :
  token_heap w !! t = Some rlt → set_token t rlt w = w.
Proof.
  intros Ht. destruct w as [th mh]. unfold set_token. simpl in *.
  by rewrite insert_id.
Qed.

Lemma registered_set_token p k t rlt w :
  registered p k (set_token t rlt w) = registered p k w.
Proof. done. Qed.

Lemma update_token_ok t f rlt rlt' w :
  token_heap w !! t = Some rlt → f rlt = Ok rlt' →
  update_token t f w = Ok (tt, set_token t rlt' w).
Proof.
  intros Ht Hf. unfold update_token, mbind, M_bind, load_token, lift.
  by rewrite Ht, Hf.
Qed.

Lemma update_token_panic t f rlt w :
  token_heap w !! t = Some rlt → f rlt = Panic → update_token t f w = Panic.
Proof.
  intros Ht Hf. unfold update_token, mbind, M_bind, load_token, lift.
  by rewrite Ht, Hf.
Qed.

Lemma load_token_set t rlt w :
  load_token t (set_token t rlt w) = Ok (rlt, set_token t rlt w).
Proof. unfold load_token, set_token. simpl. by rewrite lookup_insert_eq. Qed.




(** ** The controller *)

Lemma messagelimit_ok rsw domain :
  has_logger (rsw_logger rsw) →
  messagelimit rsw domain = Ok (effective_limit rsw domain).
Proof.
  intros Hl. unfold messagelimit, checkDomain, getDomainLimit, effective_limit, Get.
  destruct (domainList rsw !! domain) as [v|]; [|done].
  destruct (Atoi v); [done|]. by rewrite (Println_ok _ Hl).
Qed.

Lemma normalize_ok rsw recips :
  has_logger (rsw_logger rsw) →
  (if recips =? 0
   then _ ← Println (rsw_logger rsw); mret (int_add recips 1)
   else mret recips) = Ok (normalized recips).
Proof.
  intros Hl. unfold normalized. rewrite (Println_ok _ Hl).
  by destruct (recips =? 0).
Qed.

Lemma permit_not_defer rsw : permit ≠ defer rsw.
Proof. unfold permit, defer. simpl. discriminate. Qed.

Lemma RateLimit_whitelisted rsw sender recips now w :
  has_logger (rsw_logger rsw) →
  whitelisted rsw sender = true →
  RateLimit rsw sender recips now w = Ok (permit, w).
Proof.
  intros Hl Hwl. unfold RateLimit.
  run_with ltac:(by apply lift_run, normalize_ok).
  unfold whitelisted in Hwl.
  destruct (checkWhiteList rsw sender).
  - by run_with ltac:(by apply lift_run, Println_ok).
  - simpl in Hwl. rewrite Hwl.
    by run_with ltac:(by apply lift_run, Println_ok).
Qed.

(** [RateLimit] for a sender that is not whitelisted, from what its steps
    return: the limit, the token of the sender, the token once pruned. *)
Lemma RateLimit_run rsw sender recips now w lim t w1 rlt0 rlt1 :
  has_logger (rsw_logger rsw) →
  whitelisted rsw sender = false →
  messagelimit rsw (sender_domain sender) = Ok lim →
  Token (rsw_tokens rsw) sender w = Ok (t, w1) →
  token_heap w1 !! t = Some rlt0 →
  Prune (Add now (interval rsw)) rlt0 = Ok rlt1 →
  RateLimit rsw sender recips now w
  = if lim <? int_add (Count rlt1) (normalized recips)
    then Ok (defer rsw, set_token t rlt1 w1)
    else rlt2 ← RecordMessage now (normalized recips) rlt1;
         Ok (permit, set_token t rlt2 w1).
Proof.
  intros Hl Hwl Hlim Htok Ht Hpr.
  unfold RateLimit.
  run_with ltac:(by apply lift_run, normalize_ok).
  apply orb_false_elim in Hwl as [-> ->].
  run_with ltac:(by apply lift_run).
  run_with ltac:(exact Htok).
  run_with ltac:(by eapply update_token_ok).
  run_with ltac:(by apply load_token_set).
  destruct (lim <? int_add (Count rlt1) (normalized recips)).
  - by run_with ltac:(by apply lift_run, Println_ok).
  - destruct (RecordMessage now (normalized recips) rlt1) as [rlt2|] eqn:Hrec.
    + run_with ltac:(eapply update_token_ok;
                     [unfold set_token; simpl; by rewrite lookup_insert_eq
                     |exact Hrec]).
      rewrite set_token_set.
      run_with ltac:(by apply load_token_set).
      by run_with ltac:(by apply lift_run, Println_ok).
    + apply bind_panic. eapply update_token_panic; [|exact Hrec].
      unfold set_token. simpl. by rewrite lookup_insert_eq.
Qed.


(** Without a logger on the controller no call of [RateLimit] returns: each
    of its paths writes a log line. *)
Lemma RateLimit_without_logger rsw sender recips now w :
  rsw_logger rsw = NilLogger →
  RateLimit rsw sender recips now w = Panic.
Proof.
  intros Hl. unfold RateLimit. rewrite Hl.
  destruct (recips =? 0); [done|].
  run_with ltac:(done).
  destruct (checkWhiteList rsw sender); [done|].
  destruct (checkWhiteList rsw (sender_domain sender)); [done|].
  unfold mbind, M_bind.
  destruct (lift (messagelimit rsw (sender_domain sender)) w)
    as [[lim w0]|]; [|done].
  destruct (Token (rsw_tokens rsw) sender w0) as [[t w1]|]; [|done].
  destruct (update_token t _ w1) as [[[] w2]|]; [|done].
  destruct (load_token t w2) as [[rlt w3]|]; [|done].
  destruct (lim <? _); [done|].
  destruct (update_token t _ w3) as [[[] w4]|]; [|done].
  by destruct (load_token t w4) as [[rlt' w5]|].
Qed.

Lemma RateLimit_zero_is_one rsw sender now w :
  RateLimit rsw sender 0 now w = RateLimit rsw sender 1 now w.
Proof.
  destruct (rsw_logger rsw) eqn:Hl.
  { by rewrite !RateLimit_without_logger. }
  unfold RateLimit. rewrite Hl.
  rewrite (bind_run (lift (if 0 =? 0 then _ else _)) _ w 1 w) by done.
  by rewrite (bind_run (lift (if 1 =? 0 then _ else _)) _ w 1 w).
Qed.

Lemma example_ready : ready example_window example_world.
Proof.
  split; [done|]. eexists _, _. split; [reflexivity|].
  split; [reflexivity|]. split; [done|].
  intros k t Hk. cbn [rlm_tokens] in Hk.
  apply lookup_insert_Some in Hk as [[<- <-]|[_ Hk]].
  - eexists. split; [reflexivity|done].
  - apply lookup_singleton_Some in Hk as [<- <-].
    eexists. split; [reflexivity|done].
Qed.

(** A window of a minute or more covers, at any instant, the bucket of
    that instant. *)
Lemma window_covers_now (d : Duration) (now : Time) :
  d ≤ - Minute → Add now d ≤ Truncate now Minute.
Proof.
  intros Hd. pose proof (Truncate_Minute_bounds now). unfold Add. lia.
Qed.

(** The example of the spec: limit 120, a sender seen for the first time,
    and a second call whose window still covers the minute of the first.
    The second call leaves the heap as it is. *)
Lemma first_50_then_80 rsw sender now now' w :
  ready rsw w →
  whitelisted rsw sender = false →
  defaultLimit rsw = 120 →
  Get (domainList rsw) (sender_domain sender) = None →
  Add now' (interval rsw) ≤ Truncate now Minute →
  registered (rsw_tokens rsw) sender w = None →
  ∃ t w1 r1,
    RateLimit rsw sender 50 now w = Ok (permit, w1)
    ∧ registered (rsw_tokens rsw) sender w1 = Some t
    ∧ token_heap w1 !! t = Some r1
    ∧ Count r1 = 50
    ∧ RateLimit rsw sender 80 now' w1 = Ok (defer rsw, w1).
Proof.
  intros Hready Hwl Hdef Hdom Hint Hreg.
  pose proof Hready as (Hl & q & rlm & Hp & Hq & Hlm & Htoks).
  assert (messagelimit rsw (sender_domain sender) = Ok 120) as Hlim.
  { rewrite (messagelimit_ok _ _ Hl). unfold effective_limit.
    unfold Get in Hdom. by rewrite Hdom, Hdef. }
  assert (rlm_tokens rlm !! sender = None) as Hk.
  { unfold registered in Hreg. rewrite Hp in Hreg. simpl in Hreg.
    by rewrite Hq in Hreg. }
  (* the first call creates the token *)
  set (r0 := rlt_SetLogger (rlm_logger rlm) (NewRatelimitToken sender)).
  set (t := fresh (dom (token_heap w))).
  pose proof (Token_ok q rlm sender w Hq) as Htok.
  unfold Token_result in Htok. rewrite Hk in Htok. fold t r0 in Htok.
  rewrite <- Hp in Htok.
  match type of Htok with _ = Ok (_, ?x) => set (w0 := x) in * end.
  assert (token_heap w0 !! t = Some r0) as Ht0
    by (unfold w0; simpl; by rewrite lookup_insert_eq).
  pose proof (RateLimit_run rsw sender 50 now w 120 t w0 r0 r0 Hl Hwl Hlim
                Htok Ht0 (Prune_nothing_stale _ r0 (map_Forall_empty _)))
    as H1.
  change (120 <? int_add (Count r0) (normalized 50)) with false in H1.
  rewrite RecordMessage_ok in H1 by done. simpl in H1.
  change (normalized 50) with 50 in H1.
  set (r1 := recorded now 50 r0) in *.
  set (w1 := set_token t r1 w0) in *.
  assert (token_heap w1 !! t = Some r1) as Ht1
    by (unfold w1, set_token; simpl; by rewrite lookup_insert_eq).
  assert (registered (rsw_tokens rsw) sender w1 = Some t) as Hreg1.
  { rewrite Hp. unfold registered, w1, w0. simpl.
    rewrite lookup_insert_eq. simpl. by rewrite lookup_insert_eq. }
  (* the second call finds it, with its one bucket inside the window *)
  assert (Prune (Add now' (interval rsw)) r1 = Ok r1) as Hpr1.
  { apply Prune_nothing_stale. unfold r1, recorded, r0. simpl.
    rewrite lookup_empty. apply map_Forall_insert; [done|].
    split; [done|apply map_Forall_empty]. }
  pose proof (RateLimit_run rsw sender 80 now' w1 120 t w1 r1 r1 Hl Hwl Hlim
                (Token_registered _ _ _ _ Hreg1) Ht1 Hpr1) as H2.
  change (120 <? int_add (Count r1) (normalized 80)) with true in H2.
  rewrite (set_token_id _ _ _ Ht1) in H2.
  exists t, w1, r1. done.
Qed.

(** C1, as the code has it: a message over the limit is deferred and not
    recorded.  For a sender that is not whitelisted, take the limit
    [messagelimit] yields, the token [Token] returns for the sender and
    that token after [Prune]; the projected count is its [Count] plus the
    normalized recipient count.  If the projected count is greater than
    the limit, [RateLimit] returns the defer string and leaves the heap
    [Token] left, with the sender's token as [Prune] left it: without the
    message, and where no bucket is older than the cutoff, as it was.  In
    particular, with limit 120 and a sender seen for the first time, 50
    recipients are permitted and [Count] is 50, and 80 more are deferred
    and nothing changes, provided the window of the second call still
    covers the minute of the first: so at the same instant, when the
    window is a minute or more. *)
Theorem deferred_message_consumes_no_quota :
  (∀ rsw sender recips now w lim t w1 rlt0 rlt1,
     has_logger (rsw_logger rsw) →
     whitelisted rsw sender = false →
     messagelimit rsw (sender_domain sender) = Ok lim →
     Token (rsw_tokens rsw) sender w = Ok (t, w1) →
     token_heap w1 !! t = Some rlt0 →
     Prune (Add now (interval rsw)) rlt0 = Ok rlt1 →
     lim < int_add (Count rlt1) (normalized recips) →
     RateLimit rsw sender recips now w
     = Ok ("action=defer_if_permit " +:+ deferMessage rsw +:+ nl +:+ nl,
           set_token t rlt1 w1)
     ∧ tsd rlt1 = filter (live (Add now (interval rsw))) (tsd rlt0)
     ∧ (map_Forall (λ k _, Add now (interval rsw) ≤ k) (tsd rlt0) →
        rlt1 = rlt0 ∧ set_token t rlt1 w1 = w1))
  ∧ (∀ rsw sender now now' w,
       ready rsw w →
       whitelisted rsw sender = false →
       defaultLimit rsw = 120 →
       Get (domainList rsw) (sender_domain sender) = None →
       registered (rsw_tokens rsw) sender w = None →
       (Add now' (interval rsw) ≤ Truncate now Minute
        ∨ (now' = now ∧ interval rsw ≤ - Minute)) →
       ∃ t w1 r1,
         RateLimit rsw sender 50 now w = Ok (permit, w1)
         ∧ registered (rsw_tokens rsw) sender w1 = Some t
         ∧ token_heap w1 !! t = Some r1
         ∧ Count r1 = 50
         ∧ RateLimit rsw sender 80 now' w1 = Ok (defer rsw, w1)).
Proof.
  split.
  - intros rsw sender recips now w lim t w1 rlt0 rlt1 Hl Hwl Hlim Htok Ht Hpr
      Hover.
    rewrite (RateLimit_run rsw sender recips now w lim t w1 rlt0 rlt1) by done.
    apply Z.ltb_lt in Hover. rewrite Hover. split; [done|].
    rewrite (Prune_pruned _ _ _ Hpr). split; [apply pruned_tsd|].
    intros Hall. rewrite (pruned_nothing_stale _ _ Hall).
    split; [done|]. by apply set_token_id.
  - intros rsw sender now now' w Hready Hwl Hdef Hdom Hreg Hwin.
    apply first_50_then_80; try done.
    destruct Hwin as [Hwin|[-> Hwin]]; [done|]. by apply window_covers_now.
Qed.

Lemma deferred_message_consumes_no_quota_witness :
  RateLimit example_window "a@x.com" 80 example_now example_world
  = Ok ("action=defer_if_permit rate limit exceeded" +:+ nl +:+ nl,
        set_token 1%positive example_token_pruned example_world).
Proof.
  apply (proj1 deferred_message_consumes_no_quota
           example_window "a@x.com" 80 example_now example_world 120
           1%positive example_world example_token example_token_pruned).
  - vm_compute. discriminate.
  - vm_compute. reflexivity.
  - vm_compute. reflexivity.
  - vm_compute. reflexivity.
  - vm_compute. reflexivity.
  - vm_compute. reflexivity.
  - vm_compute. reflexivity.
Defined.

(** C1 as stated fails in its example: an immediate second call need not be
    deferred.  With limit 120 and a window of 60 seconds, 50 recipients of
    a sender seen for the first time are permitted just before the end of
    a minute, and 80 more, two nanoseconds later and just after the end of
    that minute, are permitted too, the count being 80 and not 50: the
    cutoff has passed the start of the minute of the first call, whose
    bucket is removed.  With the interval the constructor leaves, 0, the
    same happens at one and the same instant. *)
Lemma immediate_80_more_can_be_permitted :
  match RateLimit example_window "new@x.com" 50 659999999999 example_world with
  | Ok (s1, w1) =>
      s1 = permit
      ∧ match RateLimit example_window "new@x.com" 80 660000000001 w1 with
        | Ok (s2, w2) =>
            s2 = permit ∧ s2 ≠ defer example_window
            ∧ (t ← registered (Some 1%positive) "new@x.com" w2;
               rlt ← token_heap w2 !! t;
               Some (Count rlt)) = Some 80
        | Panic => False
        end
  | Panic => False
  end
  ∧ let rsw := {| defaultLimit := 120; deferMessage := EmptyString;
                  interval := 0; whiteList := ∅; domainList := ∅;
                  rsw_tokens := Some 1%positive;
                  rsw_logger := LoggerTo 0 |} in
    match RateLimit rsw "new@x.com" 50 example_now example_world with
    | Ok (s1, w1) =>
        s1 = permit
        ∧ match RateLimit rsw "new@x.com" 80 example_now w1 with
          | Ok (s2, w2) =>
              s2 = permit ∧ s2 ≠ defer rsw
              ∧ (t ← registered (Some 1%positive) "new@x.com" w2;
                 rlt ← token_heap w2 !! t;
                 Some (Count rlt)) = Some 80
          | Panic => False
          end
    | Panic => False
    end.
Proof.
  split; vm_compute; (split; [reflexivity|]);
    (split; [reflexivity|]); (split; [discriminate|reflexivity]).
Qed.

(** C5: the whitelist.  When the sender or its domain is a key of the
    whitelist, [RateLimit] returns the permit string and leaves the heap as
    it was: no token is looked up or created in the registry, and no token
    changes. *)
Theorem whitelisted_sender_is_permitted
    (rsw : RatelimitSlidingWindow) (sender : string) (recips : Z)
    (now : Time) (w : World) :
  has_logger (rsw_logger rsw) →
  is_Some (Get (whiteList rsw) sender)
  ∨ is_Some (Get (whiteList rsw) (sender_domain sender)) →
  RateLimit rsw sender recips now w = Ok ("action=dunno" +:+ nl +:+ nl, w).
Proof.
  intros Hl Hwl. apply RateLimit_whitelisted; [done|].
  unfold whitelisted, checkWhiteList.
  destruct Hwl as [[v ->]|[v ->]]; [done|]. apply orb_true_r.
Qed.

Lemma whitelisted_sender_is_permitted_witness :
  RateLimit example_window "boss@x.com" 0 example_now example_world
  = Ok ("action=dunno" +:+ nl +:+ nl, example_world)
  ∧ RateLimit example_window "a@trusted.org" 500 example_now example_world
    = Ok ("action=dunno" +:+ nl +:+ nl, example_world).
Proof.
  split.
  - apply (whitelisted_sender_is_permitted example_window "boss@x.com").
    + vm_compute. discriminate.
    + left. vm_compute. eexists. reflexivity.
  - apply (whitelisted_sender_is_permitted example_window "a@trusted.org").
    + vm_compute. discriminate.
    + right. vm_compute. eexists. reflexivity.
Defined.

(** C6: no recipients count as one.  A call with 0 recipients does what a
    call with 1 recipient does: for a sender that is not whitelisted the
    projected count is [Count] after [Prune] plus 1, and when the message
    is accepted [RecordMessage] records 1, so that the count of the token
    is one more than [Prune] left. *)
Theorem zero_recipients_count_as_one
    (rsw : RatelimitSlidingWindow) (sender : string) (now : Time) (w : World)
    (lim : Z) (t : loc) (w1 : World) (rlt0 rlt1 rlt2 : RatelimitToken) :
  has_logger (rsw_logger rsw) →
  whitelisted rsw sender = false →
  messagelimit rsw (sender_domain sender) = Ok lim →
  Token (rsw_tokens rsw) sender w = Ok (t, w1) →
  token_heap w1 !! t = Some rlt0 →
  Prune (Add now (interval rsw)) rlt0 = Ok rlt1 →
  RecordMessage now 1 rlt1 = Ok rlt2 →
  RateLimit rsw sender 0 now w = RateLimit rsw sender 1 now w
  ∧ (lim < int_add (Count rlt1) 1 →
     RateLimit rsw sender 0 now w = Ok (defer rsw, set_token t rlt1 w1))
  ∧ (int_add (Count rlt1) 1 ≤ lim →
     RateLimit rsw sender 0 now w = Ok (permit, set_token t rlt2 w1)
     ∧ Count rlt2 = int_add (Count rlt1) 1
     ∧ (int_min ≤ Count rlt1 < int_max → Count rlt2 = Count rlt1 + 1)).
Proof.
  intros Hl Hwl Hlim Htok Ht Hpr Hrec.
  split; [apply RateLimit_zero_is_one|].
  rewrite (RateLimit_run rsw sender 0 now w lim t w1 rlt0 rlt1) by done.
  change (normalized 0) with 1. rewrite Hrec. simpl.
  split.
  - intros Hover. apply Z.ltb_lt in Hover. by rewrite Hover.
  - intros Hfits. apply Z.ltb_ge in Hfits. rewrite Hfits. split; [done|].
    rewrite (RecordMessage_recorded _ _ _ _ Hrec), recorded_count.
    split; [done|]. intros Hrange. unfold int_add. apply wrap_id.
    unfold is_int, int_min, int_max in *. lia.
Qed.

Lemma zero_recipients_count_as_one_witness :
  RateLimit example_window "a@x.com" 0 example_now example_world
  = RateLimit example_window "a@x.com" 1 example_now example_world
  ∧ RateLimit example_window "a@x.com" 0 example_now example_world
    = Ok (permit,
          set_token 1%positive
            {| key := "a@x.com"; tsd := {[ 600000000000 := 51 ]};
               count := 51; sliceCount := 1; rlt_logger := LoggerTo 0 |}
            example_world).
Proof.
  destruct (zero_recipients_count_as_one
              example_window "a@x.com" example_now example_world 120
              1%positive example_world example_token example_token_pruned
              {| key := "a@x.com"; tsd := {[ 600000000000 := 51 ]};
                 count := 51; sliceCount := 1; rlt_logger := LoggerTo 0 |})
    as (Hsame & _ & Hone).
  - vm_compute. discriminate.
  - vm_compute. reflexivity.
  - vm_compute. reflexivity.
  - vm_compute. reflexivity.
  - vm_compute. reflexivity.
  - vm_compute. reflexivity.
  - vm_compute. reflexivity.
  - split; [exact Hsame|]. apply Hone. vm_compute. discriminate.
Defined.

(** C7, as the code has it: the limit of a sender that is not whitelisted.
    With a logger on the controller [messagelimit] always yields a limit:
    the integer a domain's entry of the override map denotes, 0 when the
    entry does not denote an integer, [defaultLimit] when the domain has no
    entry; and [RateLimit] returns a decision, whatever the entry.  A
    request is deferred exactly when its projected count is above the
    limit.  Against the limit 0 that is when the projected count is
    positive: so for every request with a recipient count that is not
    negative, on a token whose count is not negative and whose sum with the
    recipients stays within [int]. *)
Theorem domain_limit_or_default
    (rsw : RatelimitSlidingWindow) (sender : string) (recips : Z)
    (now : Time) (w : World) (t : loc) (w1 : World)
    (rlt0 rlt1 rlt2 : RatelimitToken) :
  has_logger (rsw_logger rsw) →
  whitelisted rsw sender = false →
  Token (rsw_tokens rsw) sender w = Ok (t, w1) →
  token_heap w1 !! t = Some rlt0 →
  Prune (Add now (interval rsw)) rlt0 = Ok rlt1 →
  RecordMessage now (normalized recips) rlt1 = Ok rlt2 →
  let domain := sender_domain sender in
  let tcount := int_add (Count rlt1) (normalized recips) in
  ∃ lim,
    messagelimit rsw domain = Ok lim
    ∧ (∀ v n, Get (domainList rsw) domain = Some v → Atoi v = Some n →
              lim = n)
    ∧ (∀ v, Get (domainList rsw) domain = Some v → Atoi v = None → lim = 0)
    ∧ (Get (domainList rsw) domain = None → lim = defaultLimit rsw)
    ∧ RateLimit rsw sender recips now w
      = (if lim <? tcount
         then Ok (defer rsw, set_token t rlt1 w1)
         else Ok (permit, set_token t rlt2 w1))
    ∧ (lim = 0 → 0 ≤ recips → 0 ≤ Count rlt1 →
       Count rlt1 + normalized recips ≤ int_max →
       RateLimit rsw sender recips now w
       = Ok (defer rsw, set_token t rlt1 w1)).
Proof.
  intros Hl Hwl Htok Ht Hpr Hrec domain tcount.
  pose proof (messagelimit_ok rsw domain Hl) as Hlim.
  pose proof (RateLimit_run rsw sender recips now w _ t w1 rlt0 rlt1
                Hl Hwl Hlim Htok Ht Hpr) as Hrun.
  rewrite Hrec in Hrun. simpl in Hrun. fold tcount in Hrun.
  exists (effective_limit rsw domain). split; [done|].
  split; [|split; [|split; [|split; [done|]]]].
  - unfold effective_limit, Get. by intros v n -> ->.
  - unfold effective_limit, Get. by intros v -> ->.
  - unfold effective_limit, Get. by intros ->.
  - intros Hzero Hrecips Hcount Hfit. rewrite Hrun, Hzero.
    assert (0 < normalized recips) as Hpos.
    { unfold normalized. destruct (Z.eqb_spec recips 0) as [->|?]; [done|lia]. }
    assert (0 < tcount) as Hover.
    { unfold tcount, int_add. rewrite wrap_id; [lia|].
      unfold is_int, int_min. lia. }
    apply Z.ltb_lt in Hover. by rewrite Hover.
Qed.

Lemma domain_limit_or_default_witness :
  RateLimit example_window "u@odd.com" 3 example_now example_world
  = Ok (defer example_window, example_world).
Proof.
  destruct (domain_limit_or_default
              example_window "u@odd.com" 3 example_now example_world
              2%positive example_world
              example_token_odd example_token_odd
              {| key := "u@odd.com"; tsd := {[ 600000000000 := 3 ]};
                 count := 3; sliceCount := 1; rlt_logger := LoggerTo 0 |})
    as (lim & _ & _ & Hbad & _ & _ & Hzero).
  - vm_compute. discriminate.
  - vm_compute. reflexivity.
  - vm_compute. reflexivity.
  - vm_compute. reflexivity.
  - vm_compute. reflexivity.
  - vm_compute. reflexivity.
  - rewrite Hzero.
    + vm_compute. reflexivity.
    + apply (Hbad "many"); vm_compute; reflexivity.
    + vm_compute. discriminate.
    + vm_compute. discriminate.
    + vm_compute. discriminate.
Defined.

(** C7 as stated fails: against the limit 0 of an entry that does not
    denote an integer, a request with a negative recipient count is
    permitted, and recorded. *)
Lemma unparsable_limit_permits_negative_count :
  Get (domainList example_window) (sender_domain "u@odd.com") = Some "many"
  ∧ Atoi "many" = None
  ∧ whitelisted example_window "u@odd.com" = false
  ∧ messagelimit example_window (sender_domain "u@odd.com") = Ok 0
  ∧ RateLimit example_window "u@odd.com" (-1) example_now example_world
    = Ok (permit,
          set_token 2%positive
            {| key := "u@odd.com"; tsd := {[ 600000000000 := -1 ]};
               count := -1; sliceCount := 1; rlt_logger := LoggerTo 0 |}
            example_world)
  ∧ permit ≠ defer example_window.
Proof.
  repeat split; try (vm_compute; reflexivity). apply permit_not_defer.
Qed.

(** C10: a negative recipient count.  Only 0 is replaced by 1: a negative
    count [n] is used as it is.  The projected count is [Count] after
    [Prune] plus [n]; the request is permitted whenever that does not exceed
    the limit, and then [RecordMessage] adds [n] to the bucket of the minute
    and to [count], which goes down, and below zero where it was less than
    [-n]: so for a sender seen for the first time. *)
Theorem negative_recipients_pass_through :
  (∀ rsw sender n now w lim t w1 rlt0 rlt1 rlt2,
     has_logger (rsw_logger rsw) →
     whitelisted rsw sender = false →
     messagelimit rsw (sender_domain sender) = Ok lim →
     Token (rsw_tokens rsw) sender w = Ok (t, w1) →
     token_heap w1 !! t = Some rlt0 →
     Prune (Add now (interval rsw)) rlt0 = Ok rlt1 →
     RecordMessage now n rlt1 = Ok rlt2 →
     n < 0 →
     normalized n = n
     ∧ (lim < int_add (Count rlt1) n →
        RateLimit rsw sender n now w = Ok (defer rsw, set_token t rlt1 w1))
     ∧ (int_add (Count rlt1) n ≤ lim →
        RateLimit rsw sender n now w = Ok (permit, set_token t rlt2 w1)
        ∧ Count rlt2 = int_add (Count rlt1) n
        ∧ tsd rlt2 !! Truncate now Minute
          = Some (match tsd rlt1 !! Truncate now Minute with
                  | Some val => int_add val n
                  | None => n
                  end)
        ∧ (is_int (Count rlt1 + n) → Count rlt2 < Count rlt1)
        ∧ (is_int (Count rlt1 + n) → Count rlt1 < - n → Count rlt2 < 0)))
  ∧ (∃ w' t rlt,
       RateLimit example_window "new@x.com" (-5) example_now example_world
       = Ok (permit, w')
       ∧ registered (Some 1%positive) "new@x.com" w' = Some t
       ∧ token_heap w' !! t = Some rlt
       ∧ Count rlt = -5).
Proof.
  split.
  - intros rsw sender n now w lim t w1 rlt0 rlt1 rlt2
      Hl Hwl Hlim Htok Ht Hpr Hrec Hneg.
    assert (normalized n = n) as Hn.
    { unfold normalized. destruct (Z.eqb_spec n 0); [lia|done]. }
    rewrite (RateLimit_run rsw sender n now w lim t w1 rlt0 rlt1) by done.
    rewrite Hn, Hrec. simpl.
    split; [done|]. split.
    + intros Hover. apply Z.ltb_lt in Hover. by rewrite Hover.
    + intros Hfits. apply Z.ltb_ge in Hfits. rewrite Hfits.
      split; [done|].
      rewrite (RecordMessage_recorded _ _ _ _ Hrec), recorded_count.
      split; [done|]. split.
      { unfold recorded. cbn [tsd]. by rewrite lookup_insert_eq. }
      unfold int_add. split; intros Hint; rewrite (wrap_id _ Hint); lia.
  - eexists _, _, _. split; [vm_compute; reflexivity|].
    repeat split; vm_compute; reflexivity.
Qed.

Lemma negative_recipients_pass_through_witness :
  RateLimit example_window "a@x.com" (-60) example_now example_world
  = Ok (permit,
        set_token 1%positive
          {| key := "a@x.com"; tsd := {[ 600000000000 := -10 ]};
             count := -10; sliceCount := 1; rlt_logger := LoggerTo 0 |}
          example_world).
Proof.
  destruct (proj1 negative_recipients_pass_through
              example_window "a@x.com" (-60) example_now example_world 120
              1%positive example_world example_token example_token_pruned
              {| key := "a@x.com"; tsd := {[ 600000000000 := -10 ]};
                 count := -10; sliceCount := 1; rlt_logger := LoggerTo 0 |})
    as (_ & _ & Hpermit).
  - vm_compute. discriminate.
  - vm_compute. reflexivity.
  - vm_compute. reflexivity.
  - vm_compute. reflexivity.
  - vm_compute. reflexivity.
  - vm_compute. reflexivity.
  - vm_compute. reflexivity.
  - vm_compute. reflexivity.
  - apply Hpermit. vm_compute. discriminate.
Defined.

(** ** The domain of a sender *)

Lemma Split_head s :
  ∃ pieces, Split s "@" = before_first_at s :: pieces.
Proof.
  induction s as [|c s [pieces IH]]; simpl; [by eexists|].
  destruct (Ascii.eqb c "@"); [by eexists|].
  rewrite IH. by eexists.
Qed.

Lemma Split_no_at s : has_at s = false → Split s "@" = [s].
Proof.
  induction s as [|c s IH]; simpl; [done|].
  destruct (Ascii.eqb c "@"); simpl; [done|].
  intros Hs. by rewrite IH.
Qed.

Lemma Split_at s :
  has_at s = true →
  Split s "@" = before_first_at s :: Split (after_first_at s) "@".
Proof.
  induction s as [|c s IH]; simpl; [done|].
  destruct (Ascii.eqb c "@"); simpl; [done|].
  intros Hs. by rewrite IH.
Qed.

Lemma sender_domain_eq sender :
  sender_domain sender = before_first_at (after_first_at sender).
Proof.
  unfold sender_domain. destruct (has_at sender) eqn:Hat.
  - rewrite (Split_at _ Hat).
    destruct (Split_head (after_first_at sender)) as [pieces ->]. done.
  - rewrite (Split_no_at _ Hat). simpl.
    clear -Hat. induction sender as [|c s IH]; simpl in *; [done|].
    destruct (Ascii.eqb c "@"); simpl in *; [done|]. by apply IH.
Qed.

Lemma after_first_at_no_at s : has_at s = false → after_first_at s = EmptyString.
Proof.
  induction s as [|c s IH]; simpl; [done|].
  destruct (Ascii.eqb c "@"); simpl; [done|]. apply IH.
Qed.

Lemma before_first_at_no_at s : has_at s = false → before_first_at s = s.
Proof.
  induction s as [|c s IH]; simpl; [done|].
  destruct (Ascii.eqb c "@"); simpl; [done|]. intros Hs. by rewrite IH.
Qed.

(** C4, the code at a sender with two [@]: the claim takes all that follows
    the first [@] for the domain, the code takes the piece up to the second
    [@], which is the domain part of the sender on no reading, and a
    whitelist entry for all that follows the first [@] is not consulted. *)
Lemma domain_stops_at_second_at :
  sender_domain "a@b@c" = "b"
  ∧ after_first_at "a@b@c" = "b@c"
  ∧ sender_domain "a@b@c" ≠ after_first_at "a@b@c"
  ∧ whitelisted
      {| defaultLimit := 120; deferMessage := ""; interval := 0;
         whiteList := {[ "b@c" := "ok" ]}; domainList := ∅;
         rsw_tokens := None; rsw_logger := LoggerTo 0 |} "a@b@c" = false.
Proof.
  split; [vm_compute; reflexivity|]. split; [vm_compute; reflexivity|].
  split; [vm_compute; discriminate|]. vm_compute; reflexivity.
Qed.

(** What [RateLimit] computes for the domain: what lies between the first
    [@] of the sender and its second, or the end when there is no second.
    It is empty when the sender has no [@], and all that follows the first
    [@] when the sender has one [@] only: there the code does what the
    spec says.  It is the key of the whitelist lookup for the domain, and
    of the lookup in the override map. *)
Theorem domain_is_second_piece
    (rsw : RatelimitSlidingWindow) (sender : string) (recips : Z)
    (now : Time) (w : World) :
  let domain := before_first_at (after_first_at sender) in
  sender_domain sender = domain
  ∧ (has_at sender = false → sender_domain sender = EmptyString)
  ∧ (has_at (after_first_at sender) = false →
     sender_domain sender = after_first_at sender)
  ∧ (has_logger (rsw_logger rsw) →
     is_Some (Get (whiteList rsw) domain) →
     RateLimit rsw sender recips now w = Ok (permit, w))
  ∧ (has_logger (rsw_logger rsw) →
     Get (whiteList rsw) sender = None →
     Get (whiteList rsw) domain = None →
     ∀ t w1 rlt0 rlt1 rlt2,
       Token (rsw_tokens rsw) sender w = Ok (t, w1) →
       token_heap w1 !! t = Some rlt0 →
       Prune (Add now (interval rsw)) rlt0 = Ok rlt1 →
       RecordMessage now (normalized recips) rlt1 = Ok rlt2 →
       RateLimit rsw sender recips now w
       = if match Get (domainList rsw) domain with
            | Some v => default 0 (Atoi v)
            | None => defaultLimit rsw
            end <? int_add (Count rlt1) (normalized recips)
         then Ok (defer rsw, set_token t rlt1 w1)
         else Ok (permit, set_token t rlt2 w1)).
Proof.
  intros domain. pose proof (sender_domain_eq sender) as Heq. fold domain in Heq.
  split; [done|]. split; [|split; [|split]].
  - intros Hat. rewrite Heq. unfold domain.
    by rewrite (after_first_at_no_at _ Hat).
  - intros Hat. rewrite Heq. by apply before_first_at_no_at.
  - intros Hl Hwl. apply RateLimit_whitelisted; [done|].
    unfold whitelisted, checkWhiteList. rewrite Heq.
    destruct Hwl as [v ->]. apply orb_true_r.
  - intros Hl Hwl1 Hwl2 t w1 rlt0 rlt1 rlt2 Htok Ht Hpr Hrec.
    rewrite <- Heq in *.
    assert (whitelisted rsw sender = false) as Hwl.
    { unfold whitelisted, checkWhiteList. by rewrite Hwl1, Hwl2. }
    rewrite (RateLimit_run rsw sender recips now w _ t w1 rlt0 rlt1
               Hl Hwl (messagelimit_ok _ _ Hl) Htok Ht Hpr).
    rewrite Hrec. done.
Qed.

Lemma domain_is_second_piece_witness :
  RateLimit example_window "x@trusted.org@evil.com" 7 example_now
    example_world
  = Ok (permit, example_world).
Proof.
  apply (proj1 (proj2 (proj2 (proj2
           (domain_is_second_piece example_window "x@trusted.org@evil.com"
              7 example_now example_world))))).
  - vm_compute. discriminate.
  - vm_compute. eexists. reflexivity.
Defined.

(** ** Get-or-create *)

Lemma registry_ok_inj q w k1 k2 t :
  registry_ok q w →
  registered (Some q) k1 w = Some t → registered (Some q) k2 w = Some t →
  k1 = k2.
Proof.
  intros (rlm & Hq & Hall). unfold registered. simpl. rewrite Hq. simpl.
  intros H1 H2.
  destruct (Hall _ _ H1) as (rlt1 & Ht1 & <-).
  destruct (Hall _ _ H2) as (rlt2 & Ht2 & <-). congruence.
Qed.

Lemma NewRatelimitTokenMap_ok w :
  ∃ q w', NewRatelimitTokenMap w = Ok (q, w')
          ∧ registry_ok q w'
          ∧ (∀ k, registered (Some q) k w' = None)
          ∧ token_heap w' = token_heap w.
Proof.
  eexists _, _. split; [reflexivity|]. simpl. split; [|split; [|done]].
  - eexists. simpl. rewrite lookup_insert_eq. split; [done|].
    intros k t Hk. simpl in Hk. by rewrite lookup_empty in Hk.
  - intros k. unfold registered. simpl. rewrite lookup_insert_eq. done.
Qed.

(** One call of [Token]. *)
Lemma Token_step q k w :
  registry_ok q w →
  ∃ t w',
    Token (Some q) k w = Ok (t, w')
    ∧ registry_ok q w'
    ∧ registered (Some q) k w' = Some t
    ∧ (∀ k' t', registered (Some q) k' w = Some t' →
                registered (Some q) k' w' = Some t')
    ∧ (∀ t' rlt, token_heap w !! t' = Some rlt →
                 token_heap w' !! t' = Some rlt)
    ∧ match registered (Some q) k w with
      | Some t0 => t = t0 ∧ w' = w
      | None =>
          token_heap w !! t = None
          ∧ token_heap w'
            = <[t := rlt_SetLogger
                       (default NilLogger (rlm_logger <$> map_heap w !! q))
                       (NewRatelimitToken k)]> (token_heap w)
          ∧ ∀ k', k' ≠ k →
                  registered (Some q) k' w' = registered (Some q) k' w
      end.
Proof.
  intros (rlm & Hq & Hall).
  exists (Token_result q rlm k w).1, (Token_result q rlm k w).2.
  split; [rewrite (Token_ok q rlm k w Hq); by destruct (Token_result _ _ _ _)|].
  unfold Token_result, registered, registry_ok. simpl. rewrite Hq. simpl.
  destruct (rlm_tokens rlm !! k) as [t|] eqn:Hk; simpl.
  - rewrite Hq. simpl. repeat split; try done. eauto.
  - set (t := fresh (dom (token_heap w))).
    pose proof (fresh_token_loc w) as Hfresh. fold t in Hfresh.
    rewrite lookup_insert_eq. simpl. rewrite lookup_insert_eq.
    repeat split; try done.
    + eexists. split; [done|]. simpl. intros k' t' Hk'.
      apply lookup_insert_Some in Hk' as [[<- <-]|[Hne Hk']].
      * eexists. rewrite lookup_insert_eq. done.
      * destruct (Hall k' t' Hk') as (rlt & Ht' & Hkey).
        exists rlt. split; [|done]. rewrite lookup_insert_ne; [done|].
        intros <-. congruence.
    + intros k' t' Hk'. rewrite lookup_insert_ne; [done|].
      intros <-. congruence.
    + intros t' rlt Ht'. rewrite lookup_insert_ne; [done|].
      intros <-. congruence.
    + intros k' Hne. by rewrite lookup_insert_ne.
Qed.

Lemma Tokens_steps q ks w :
  registry_ok q w →
  ∃ ts w',
    Tokens (Some q) ks w = Ok (ts, w')
    ∧ registry_ok q w'
    ∧ Forall2 (λ k t, registered (Some q) k w' = Some t) ks ts
    ∧ (∀ k t, registered (Some q) k w = Some t →
              registered (Some q) k w' = Some t)
    ∧ (∀ t rlt, token_heap w !! t = Some rlt →
                token_heap w' !! t = Some rlt)
    ∧ (∀ t, token_heap w !! t = None → is_Some (token_heap w' !! t) →
            ∃ k, k ∈ ks ∧ registered (Some q) k w' = Some t).
Proof.
  revert w. induction ks as [|k ks IH]; intros w Hok.
  { exists [], w. repeat split; try done.
    intros t Hnone [rlt Hsome]. congruence. }
  destruct (Token_step q k w Hok)
    as (t & w1 & Hrun & Hok1 & Hreg & Hkeep & Hheap & Hcase).
  destruct (IH w1 Hok1) as (ts & w' & Hruns & Hok' & Hall & Hkeep' & Hheap' & Hnew).
  exists (t :: ts), w'. split.
  { simpl. erewrite bind_run; [|exact Hrun].
    erewrite bind_run; [|exact Hruns]. done. }
  split; [done|]. split; [constructor; auto|].
  split; [auto|]. split; [auto|].
  intros t' Hnone Hsome.
  destruct (token_heap w1 !! t') as [rlt|] eqn:Ht1.
  - (* allocated by the first call *)
    exists k. split; [left|].
    destruct (registered (Some q) k w) as [t0|] eqn:Hk.
    + destruct Hcase as [_ ->]. congruence.
    + destruct Hcase as (_ & Hw1 & _). rewrite Hw1 in Ht1.
      apply lookup_insert_Some in Ht1 as [[<- _]|[_ Ht1]]; [auto|congruence].
  - destruct (Hnew t' Ht1 Hsome) as (k' & Hin & Hk'). exists k'.
    split; [by right|done].
Qed.

(** C9: get-or-create.  On a registry whose tokens each sit under their own
    key, [Token] returns the token registered for the key and changes
    nothing, or, when there is none, allocates a new token for the key,
    registers it and returns it; what was registered stays registered.
    Over any list of calls: two calls return the same token exactly when
    their keys are the same, and every token the calls create is the one
    registered for its key. *)
Theorem get_or_create_one_token_per_key (q : loc) (w : World) :
  registry_ok q w →
  (∀ k t, registered (Some q) k w = Some t →
          Token (Some q) k w = Ok (t, w))
  ∧ (∀ k, registered (Some q) k w = None →
          ∃ t w',
            Token (Some q) k w = Ok (t, w')
            ∧ token_heap w !! t = None
            ∧ (∃ rlt, token_heap w' !! t = Some rlt ∧ Key rlt = k
                      ∧ tsd rlt = ∅ ∧ Count rlt = 0)
            ∧ registered (Some q) k w' = Some t
            ∧ (∀ k' t', registered (Some q) k' w = Some t' →
                        registered (Some q) k' w' = Some t')
            ∧ (∀ t' rlt, token_heap w !! t' = Some rlt →
                         token_heap w' !! t' = Some rlt))
  ∧ (∀ ks, ∃ ts w',
       Tokens (Some q) ks w = Ok (ts, w')
       ∧ length ts = length ks
       ∧ (∀ i j ki kj ti tj,
            ks !! i = Some ki → ks !! j = Some kj →
            ts !! i = Some ti → ts !! j = Some tj →
            (ki = kj ↔ ti = tj))
       ∧ (∀ k t, registered (Some q) k w = Some t →
                 registered (Some q) k w' = Some t)
       ∧ (∀ t, token_heap w !! t = None → is_Some (token_heap w' !! t) →
               ∃ k rlt, k ∈ ks ∧ registered (Some q) k w' = Some t
                        ∧ token_heap w' !! t = Some rlt ∧ Key rlt = k)).
Proof.
  intros Hok. split; [|split].
  - intros k t Hreg.
    destruct (Token_step q k w Hok) as (t' & w' & Hrun & _ & _ & _ & _ & Hcase).
    rewrite Hreg in Hcase. destruct Hcase as [-> ->]. done.
  - intros k Hreg.
    destruct (Token_step q k w Hok)
      as (t & w' & Hrun & _ & Hk & Hkeep & Hheap & Hcase).
    rewrite Hreg in Hcase. destruct Hcase as (Hfresh & Hw' & _).
    exists t, w'. repeat split; try done.
    eexists. rewrite Hw', lookup_insert_eq. done.
  - intros ks.
    destruct (Tokens_steps q ks w Hok)
      as (ts & w' & Hrun & Hok' & Hall & Hkeep & _ & Hnew).
    exists ts, w'. split; [done|].
    split; [symmetry; by eapply Forall2_length|]. split; [|split; [done|]].
    + intros i j ki kj ti tj Hki Hkj Hti Htj.
      pose proof (Forall2_lookup_lr _ _ _ _ _ _ Hall Hki Hti) as Hri.
      pose proof (Forall2_lookup_lr _ _ _ _ _ _ Hall Hkj Htj) as Hrj.
      split.
      * intros ->. congruence.
      * intros ->. by eapply registry_ok_inj.
    + intros t Hnone Hsome.
      destruct (Hnew t Hnone Hsome) as (k & Hin & Hreg).
      destruct Hok' as (rlm & Hq & Hall').
      unfold registered in Hreg. simpl in Hreg. rewrite Hq in Hreg.
      destruct (Hall' k t Hreg) as (rlt & Ht & Hkey).
      exists k, rlt. repeat split; try done.
      unfold registered. simpl. by rewrite Hq.
Qed.

Lemma example_registry_ok : registry_ok 1%positive example_world.
Proof.
  eexists. split; [reflexivity|]. intros k t Hk. cbn [rlm_tokens] in Hk.
  apply lookup_insert_Some in Hk as [[<- <-]|[_ Hk]].
  - eexists. split; reflexivity.
  - apply lookup_singleton_Some in Hk as [<- <-].
    eexists. split; reflexivity.
Qed.

Lemma get_or_create_one_token_per_key_witness :
  Token (Some 1%positive) "a@x.com" example_world
  = Ok (1%positive, example_world)
  ∧ ∃ ts w',
      Tokens (Some 1%positive) ["b@x.com"; "a@x.com"; "b@x.com"] example_world
      = Ok (ts, w')
      ∧ length ts = 3%nat.
Proof.
  destruct (get_or_create_one_token_per_key 1%positive example_world)
    as (Hold & _ & Hseq).
  - exact example_registry_ok.
  - split.
    + apply Hold. vm_compute. reflexivity.
    + destruct (Hseq ["b@x.com"; "a@x.com"; "b@x.com"])
        as (ts & w' & Hrun & Hlen & _).
      exists ts, w'. split; [exact Hrun|exact Hlen].
Defined.

Lemma AddToken_registry_ok q t w :
  registry_ok q w → is_Some (token_heap w !! t) →
  ∃ w', AddToken (Some q) t w = Ok (tt, w') ∧ registry_ok q w'.
Proof.
  intros (rlm & Hq & Hall) [rlt Ht]. eexists. split.
  - unfold AddToken. erewrite bind_run; [|by unfold load_map; rewrite Hq].
    simpl. erewrite bind_run; [|by unfold load_token; rewrite Ht]. done.
  - eexists. simpl. rewrite lookup_insert_eq. split; [done|].
    simpl. intros k' t' Hk'.
    apply lookup_insert_Some in Hk' as [[<- <-]|[_ Hk']]; eauto.
Qed.

(** ** Panics *)



(** The constructors followed by [SetLogger] on the registry and on the
    controller set a controller up. *)
Lemma constructed_then_logged_is_ready (wl dl : MemoryMap) (sink sink' : nat)
    (w : World) :
  ∃ q w' rsw,
    (q ← NewRatelimitTokenMap;
     _ ← rlm_SetLogger (LoggerTo sink) (Some q);
     mret q) w = Ok (q, w')
    ∧ rsw_SetLogger (LoggerTo sink')
        (NewRatelimitSlidingWindow wl dl (Some q)) = Ok rsw
    ∧ ready rsw w'.
Proof.
  set (q := fresh (dom (map_heap w))).
  exists q,
    {| token_heap := token_heap w;
       map_heap :=
         <[q := {| rlm_tokens := ∅; rlm_logger := LoggerTo sink |}]>
           (<[q := {| rlm_tokens := ∅; rlm_logger := NilLogger |}]>
              (map_heap w)) |}.
  eexists. split; [|split; [reflexivity|]].
  - unfold NewRatelimitTokenMap, alloc_map, rlm_SetLogger, load_map,
      store_map, mbind, M_bind, mret, M_ret. fold q. cbn [map_heap].
    by rewrite lookup_insert_eq.
  - split; [done|]. eexists _, _. split; [reflexivity|]. cbn [map_heap].
    rewrite lookup_insert_eq. split; [done|]. split; [done|].
    cbn [rlm_tokens]. intros k t Hk. by rewrite lookup_empty in Hk.
Qed.

(** The window matters to the example of C1: with the interval the
    constructor leaves, 0, the bucket of the first call is older than the
    cutoff of the second, half a minute into the minute, and the 80 are
    permitted. *)
Lemma without_window_80_more_are_permitted :
  let rsw := {| defaultLimit := 120; deferMessage := EmptyString;
                interval := 0; whiteList := ∅; domainList := ∅;
                rsw_tokens := Some 1%positive; rsw_logger := LoggerTo 0 |} in
  let w := {| token_heap := ∅;
              map_heap := {[ 1%positive :=
                               {| rlm_tokens := ∅;
                                  rlm_logger := LoggerTo 0 |} ]} |} in
  match RateLimit rsw "a@x.com" 50 example_now w with
  | Ok (s, w1) =>
      s = permit
      ∧ match RateLimit rsw "a@x.com" 80 example_now w1 with
        | Ok (s', _) => s' = permit
        | Panic => False
        end
  | Panic => False
  end.
Proof. vm_compute. split; reflexivity. Qed.



(** * Further properties *)

(** ** The bucket counter, and [Prune] after [Prune] *)

(** A property of every state a token can reach follows from the four
    ways the state can come about. *)
Lemma reachable_pure_ind (P : RatelimitToken → Prop) :
  (∀ k, P (NewRatelimitToken k)) →
  (∀ l rlt, P rlt → P (rlt_SetLogger l rlt)) →
  (∀ ts recips rlt, P rlt → P (recorded ts recips rlt)) →
  (∀ lim rlt, P rlt → P (pruned lim rlt)) →
  ∀ rlt, reachable rlt → P rlt.
Proof.
  intros Hnew Hlog Hrec Hpr rlt Hr.
  induction Hr as [k|rlt op rlt' _ IH Hop]; [apply Hnew|].
  destruct op as [ts recips|lim|l]; simpl in Hop.
  - rewrite (RecordMessage_recorded _ _ _ _ Hop). by apply Hrec.
  - rewrite (Prune_pruned _ _ _ Hop). by apply Hpr.
  - injection Hop as <-. by apply Hlog.
Qed.

Lemma recorded_slice_inv ts recips rlt :
  slice_inv rlt → slice_inv (recorded ts recips rlt).
Proof.
  unfold slice_inv, recorded. cbn [sliceCount tsd]. intros Hinv.
  rewrite map_size_insert.
  destruct (tsd rlt !! Truncate ts Minute); simpl; [done|].
  rewrite Hinv. unfold int_add. rewrite wrap_add_l. f_equal. lia.
Qed.

Lemma foldl_prune_slice_inv lim es rlt :
  NoDup es.*1 →
  (∀ k v, (k, v) ∈ es → tsd rlt !! k = Some v) →
  slice_inv rlt → slice_inv (foldl (prune_entry lim) rlt es).
Proof.
  revert rlt. induction es as [|[t val] es IH]; intros rlt Hnd Hag Hinv;
    [done|].
  rewrite fmap_cons in Hnd. apply NoDup_cons in Hnd as [Hnotin Hnd].
  cbn [foldl]. apply IH; [done| |].
  - intros k v Hin. unfold prune_entry. simpl fst.
    destruct (Before t lim); cbn [tsd]; [|apply Hag; by right].
    rewrite lookup_delete_ne; [apply Hag; by right|].
    intros <-. apply Hnotin, list_elem_of_fmap. by exists (t, v).
  - unfold prune_entry. simpl fst. destruct (Before t lim); [|done].
    unfold slice_inv in *. cbn [sliceCount tsd].
    assert (tsd rlt !! t = Some val) as Ht by (apply Hag; left).
    rewrite map_size_delete_Some by eauto.
    pose proof (map_size_ne_0_lookup_2 (tsd rlt) t (mk_is_Some _ _ Ht)).
    rewrite Hinv. unfold int_sub. rewrite wrap_sub_l. f_equal. lia.
Qed.

Lemma pruned_slice_inv lim rlt : slice_inv rlt → slice_inv (pruned lim rlt).
Proof.
  apply foldl_prune_slice_inv; [apply NoDup_fst_map_to_list|].
  intros k v. by rewrite elem_of_map_to_list.
Qed.

Lemma reachable_slice_inv rlt : reachable rlt → slice_inv rlt.
Proof.
  apply reachable_pure_ind.
  - intros k. unfold slice_inv. simpl. by rewrite map_size_empty.
  - done.
  - intros. by apply recorded_slice_inv.
  - intros. by apply pruned_slice_inv.
Qed.

(** X1: the bucket counter.  In every state a token can reach, [sliceCount]
    is the number of buckets of the token, in [int]: the number itself
    while there are fewer than 2^63 buckets. *)
Theorem slice_count_is_number_of_buckets (rlt : RatelimitToken) :
  reachable rlt →
  sliceCount rlt = wrap (Z.of_nat (size (tsd rlt)))
  ∧ (Z.of_nat (size (tsd rlt)) ≤ int_max →
     sliceCount rlt = Z.of_nat (size (tsd rlt))).
Proof.
  intros Hr. pose proof (reachable_slice_inv rlt Hr) as Hinv.
  split; [done|]. intros Hsmall. rewrite Hinv. apply wrap_id.
  unfold is_int, int_min. lia.
Qed.

Lemma example_token_reachable : reachable example_token.
Proof.
  apply (reachable_step
           {| key := "a@x.com"; tsd := {[ 0 := 5 ]}; count := 5;
              sliceCount := 1; rlt_logger := LoggerTo 0 |}
           (OpRecordMessage 610000000000 50)); [|vm_compute; reflexivity].
  apply (reachable_step
           (rlt_SetLogger (LoggerTo 0) (NewRatelimitToken "a@x.com"))
           (OpRecordMessage 1000 5)); [|vm_compute; reflexivity].
  apply (reachable_step (NewRatelimitToken "a@x.com")
           (OpSetLogger (LoggerTo 0))); [|reflexivity].
  apply reachable_new.
Qed.

Lemma example_token_pruned_reachable : reachable example_token_pruned.
Proof.
  apply (reachable_step example_token (OpPrune 600000000000));
    [exact example_token_reachable|vm_compute; reflexivity].
Qed.

Lemma slice_count_is_number_of_buckets_witness :
  sliceCount example_token_pruned = 1.
Proof.
  destruct (slice_count_is_number_of_buckets example_token_pruned
              example_token_pruned_reachable) as [_ Hexact].
  rewrite Hexact; vm_compute; [reflexivity|discriminate].
Defined.

(** X2: when [Prune] panics.  [Prune] panics exactly on a token without a
    logger that has a bucket before the cutoff (the log line of the
    removal is what fails); a token without a logger and without such a
    bucket is returned as it is. *)
Theorem prune_panics_without_logger (lim : Time) (rlt : RatelimitToken) :
  (Prune lim rlt = Panic ↔
   rlt_logger rlt = NilLogger ∧ ∃ k v, tsd rlt !! k = Some v ∧ k < lim)
  ∧ (rlt_logger rlt = NilLogger → ∀ rlt', Prune lim rlt = Ok rlt' → rlt' = rlt).
Proof.
  split; [|intros Hl rlt'; by apply prune_loop_nil].
  destruct (rlt_logger rlt) eqn:Hl.
  - destruct (decide (map_Forall (λ k _, lim ≤ k) (tsd rlt))) as [Hall|Hsome].
    + rewrite (Prune_nothing_stale _ _ Hall). split; [done|].
      intros (_ & k & v & Hk & Hlt). specialize (Hall k v Hk). simpl in Hall.
      lia.
    + apply map_not_Forall in Hsome; [|apply _].
      destruct Hsome as (k & v & Hk & Hlt).
      split; [intros _; split; [done|]; exists k, v; split; [done|lia]|].
      intros _. destruct (Prune lim rlt) as [rlt'|] eqn:Hpr; [|done].
      pose proof (prune_loop_nil _ _ _ _ Hl Hpr) as ->.
      pose proof (Prune_pruned _ _ _ Hpr) as Heq.
      assert (tsd rlt !! k = None) as Hnone.
      { rewrite Heq at 1. rewrite pruned_tsd, map_lookup_filter_None.
        right. intros v' _. unfold live. simpl. lia. }
      congruence.
  - rewrite Prune_ok by (unfold has_logger; congruence).
    split; [done|]. by intros [? _].
Qed.

Lemma Prune_nil lim rlt :
  rlt_logger rlt = NilLogger →
  Prune lim rlt
  = if decide (map_Forall (λ k _, lim ≤ k) (tsd rlt)) then Ok rlt else Panic.
Proof.
  intros Hl. case_decide as Hall; [by apply Prune_nothing_stale|].
  destruct (Prune lim rlt) as [rlt'|] eqn:Hpr; [|done].
  pose proof (prune_loop_nil _ _ _ _ Hl Hpr) as ->.
  pose proof (Prune_pruned _ _ _ Hpr) as Heq.
  exfalso. apply Hall. intros k v Hk. simpl.
  rewrite Heq, pruned_tsd in Hk.
  apply map_lookup_filter_Some in Hk as [_ Hlive]. exact Hlive.
Qed.

(** A token that keeps the two invariants is determined by its key, its
    buckets and its logger. *)
Lemma token_determined rlt rlt' :
  token_inv rlt → slice_inv rlt → token_inv rlt' → slice_inv rlt' →
  key rlt = key rlt' → tsd rlt = tsd rlt' → rlt_logger rlt = rlt_logger rlt' →
  rlt = rlt'.
Proof.
  unfold token_inv, slice_inv.
  destruct rlt, rlt'. simpl. intros -> -> -> -> -> -> ->. done.
Qed.

Lemma live_live l1 l2 (m : gmap Z Z) :
  filter (live l2) (filter (live l1) m) = filter (live (Z.max l1 l2)) m.
Proof.
  rewrite map_filter_filter. apply map_filter_ext.
  intros k v _. unfold live. simpl. lia.
Qed.

Lemma pruned_pruned l1 l2 rlt :
  token_inv rlt → slice_inv rlt →
  pruned l2 (pruned l1 rlt) = pruned (Z.max l1 l2) rlt.
Proof.
  intros Hinv Hsl. apply token_determined.
  - by apply pruned_inv, pruned_inv.
  - by apply pruned_slice_inv, pruned_slice_inv.
  - by apply pruned_inv.
  - by apply pruned_slice_inv.
  - by rewrite !pruned_key.
  - by rewrite !pruned_tsd, live_live.
  - by rewrite !pruned_logger.
Qed.

(** X3: [Prune] after [Prune].  On a token in a state it can reach, to
    prune at one cutoff and then at another is to prune once at the later
    of the two, panic included; so to prune again at the same cutoff
    changes nothing. *)
Theorem prune_twice_is_prune_at_later (l1 l2 : Time) (rlt : RatelimitToken) :
  reachable rlt →
  (rlt1 ← Prune l1 rlt; Prune l2 rlt1) = Prune (Z.max l1 l2) rlt
  ∧ (rlt1 ← Prune l1 rlt; Prune l1 rlt1) = Prune l1 rlt.
Proof.
  intros Hr.
  assert (∀ a b, (rlt1 ← Prune a rlt; Prune b rlt1) = Prune (Z.max a b) rlt)
    as Hgen.
  { intros a b. destruct (rlt_logger rlt) eqn:Hl.
    - rewrite (Prune_nil a _ Hl), (Prune_nil (Z.max a b) _ Hl).
      destruct (decide (map_Forall (λ k _, a ≤ k) (tsd rlt))) as [Ha|Ha];
        simpl.
      + rewrite (Prune_nil b _ Hl).
        repeat case_decide; try done; exfalso.
        * apply H0. intros k v Hk. specialize (Ha k v Hk).
          specialize (H k v Hk). simpl in *. lia.
        * apply H. intros k v Hk. specialize (H0 k v Hk). simpl in *. lia.
      + case_decide as Hmax; [|done]. exfalso. apply Ha.
        intros k v Hk. specialize (Hmax k v Hk). simpl in *. lia.
    - assert (has_logger (rlt_logger rlt)) as Hlog
        by (unfold has_logger; congruence).
      rewrite (Prune_ok a _ Hlog), (Prune_ok (Z.max a b) _ Hlog). simpl.
      rewrite Prune_ok by (by rewrite pruned_logger).
      f_equal. apply pruned_pruned.
      + by apply run_op_inv_reachable.
      + by apply reachable_slice_inv. }
  split; [apply Hgen|]. rewrite Hgen. by rewrite Z.max_id.
Qed.

Lemma prune_twice_is_prune_at_later_witness :
  (rlt1 ← Prune 100 example_token; Prune 600000000000 rlt1)
  = Ok example_token_pruned.
Proof.
  rewrite (proj1 (prune_twice_is_prune_at_later 100 600000000000
                    example_token example_token_reachable)).
  vm_compute. reflexivity.
Defined.

(** ** What a call of [RateLimit] that returns has done *)

Lemma Token_inv p k w t w1 :
  Token p k w = Ok (t, w1) →
  ∃ q rlm, p = Some q ∧ map_heap w !! q = Some rlm
           ∧ Token_result q rlm k w = (t, w1).
Proof.
  destruct p as [q|]; [|done].
  destruct (map_heap w !! q) as [rlm|] eqn:Hq.
  - rewrite (Token_ok q rlm k w Hq). intros [= Hres]. by exists q, rlm.
  - unfold Token, mbind, M_bind, load_map. by rewrite Hq.
Qed.

(** The steps behind a result of [RateLimit] for a sender that is not
    whitelisted. *)
Lemma RateLimit_inv rsw sender recips now w s w' :
  whitelisted rsw sender = false →
  RateLimit rsw sender recips now w = Ok (s, w') →
  has_logger (rsw_logger rsw)
  ∧ ∃ lim t w1 rlt0 rlt1,
      messagelimit rsw (sender_domain sender) = Ok lim
      ∧ Token (rsw_tokens rsw) sender w = Ok (t, w1)
      ∧ token_heap w1 !! t = Some rlt0
      ∧ Prune (Add now (interval rsw)) rlt0 = Ok rlt1
      ∧ ((lim < int_add (Count rlt1) (normalized recips)
          ∧ s = defer rsw ∧ w' = set_token t rlt1 w1)
         ∨ (int_add (Count rlt1) (normalized recips) ≤ lim
            ∧ s = permit
            ∧ ∃ rlt2, RecordMessage now (normalized recips) rlt1 = Ok rlt2
                      ∧ w' = set_token t rlt2 w1)).
Proof.
  intros Hwl Hrun.
  assert (has_logger (rsw_logger rsw)) as Hl.
  { intros Hnil. by rewrite RateLimit_without_logger in Hrun. }
  split; [done|].
  pose proof (messagelimit_ok rsw (sender_domain sender) Hl) as Hlim.
  pose proof Hwl as Hwl'. apply orb_false_elim in Hwl' as [Hw1 Hw2].
  (* the steps up to the comparison must have returned *)
  assert (∀ A (k : _ → M A),
    (recips' ← lift (if recips =? 0
                     then _ ← Println (rsw_logger rsw);
                          mret (int_add recips 1)
                     else mret recips); k recips') w
    = k (normalized recips) w) as Hnorm.
  { intros A k. by run_with ltac:(by apply lift_run, normalize_ok). }
  destruct (Token (rsw_tokens rsw) sender w) as [[t w1]|] eqn:Htok.
  2:{ exfalso. unfold RateLimit in Hrun. rewrite Hnorm, Hw1, Hw2 in Hrun.
      erewrite bind_run in Hrun; [|by apply lift_run].
      by rewrite (bind_panic _ _ _ Htok) in Hrun. }
  destruct (token_heap w1 !! t) as [rlt0|] eqn:Ht.
  2:{ exfalso. unfold RateLimit in Hrun. rewrite Hnorm, Hw1, Hw2 in Hrun.
      erewrite bind_run in Hrun; [|by apply lift_run].
      erewrite bind_run in Hrun; [|exact Htok].
      rewrite bind_panic in Hrun; [done|].
      unfold update_token. apply bind_panic. unfold load_token.
      by rewrite Ht. }
  destruct (Prune (Add now (interval rsw)) rlt0) as [rlt1|] eqn:Hpr.
  2:{ exfalso. unfold RateLimit in Hrun. rewrite Hnorm, Hw1, Hw2 in Hrun.
      erewrite bind_run in Hrun; [|by apply lift_run].
      erewrite bind_run in Hrun; [|exact Htok].
      rewrite bind_panic in Hrun; [done|].
      by eapply update_token_panic. }
  exists (effective_limit rsw (sender_domain sender)), t, w1, rlt0, rlt1.
  repeat (split; [done|]).
  rewrite (RateLimit_run rsw sender recips now w _ t w1 rlt0 rlt1
             Hl Hwl Hlim Htok Ht Hpr) in Hrun.
  destruct (Z.ltb_spec (effective_limit rsw (sender_domain sender))
              (int_add (Count rlt1) (normalized recips))).
  - left. by injection Hrun as <- <-.
  - right. destruct (RecordMessage now (normalized recips) rlt1)
      as [rlt2|]; [|done].
    simpl in Hrun. injection Hrun as <- <-. eauto.
Qed.

Lemma Token_registers p k w t w1 :
  Token p k w = Ok (t, w1) → registered p k w1 = Some t.
Proof.
  intros Htok. destruct (Token_inv _ _ _ _ _ Htok) as (q & rlm & -> & Hq & Hres).
  unfold Token_result in Hres. unfold registered. simpl.
  destruct (rlm_tokens rlm !! k) as [t0|] eqn:Hk.
  - injection Hres as <- <-. by rewrite Hq.
  - injection Hres as <- <-. simpl. rewrite lookup_insert_eq. simpl.
    by rewrite lookup_insert_eq.
Qed.

Lemma RateLimit_returns_has_logger rsw sender recips now w s w' :
  RateLimit rsw sender recips now w = Ok (s, w') →
  has_logger (rsw_logger rsw).
Proof. intros Hrun Hnil. by rewrite RateLimit_without_logger in Hrun. Qed.

(** ** The quota *)

(** X4: an accepted message stays within the limit.  Whenever [RateLimit]
    permits a sender that is not whitelisted, the count of the sender's
    registered token afterwards is the projected count, and it is at most
    the limit that [messagelimit] yields for the sender's domain. *)
Theorem accepted_count_within_limit
    (rsw : RatelimitSlidingWindow) (sender : string) (recips : Z)
    (now : Time) (w w' : World) :
  whitelisted rsw sender = false →
  RateLimit rsw sender recips now w = Ok (permit, w') →
  ∃ lim t rlt,
    messagelimit rsw (sender_domain sender) = Ok lim
    ∧ registered (rsw_tokens rsw) sender w' = Some t
    ∧ token_heap w' !! t = Some rlt
    ∧ Count rlt ≤ lim.
Proof.
  intros Hwl Hrun.
  destruct (RateLimit_inv _ _ _ _ _ _ _ Hwl Hrun)
    as (_ & lim & t & w1 & rlt0 & rlt1 & Hlim & Htok & _ & _ & Hcase).
  destruct Hcase as [(_ & Hs & _)|(Hfits & _ & rlt2 & Hrec & ->)].
  { by destruct (permit_not_defer rsw). }
  exists lim, t, rlt2. split; [done|].
  split; [rewrite registered_set_token;
          exact (Token_registers _ _ _ _ _ Htok)|].
  split; [unfold set_token; simpl; by rewrite lookup_insert_eq|].
  by rewrite (RecordMessage_recorded _ _ _ _ Hrec), recorded_count.
Qed.

Lemma accepted_count_within_limit_witness :
  ∃ lim t rlt,
    messagelimit example_window (sender_domain "a@x.com") = Ok lim
    ∧ registered (Some 1%positive) "a@x.com"
        (set_token 1%positive
           {| key := "a@x.com"; tsd := {[ 600000000000 := 120 ]};
              count := 120; sliceCount := 1; rlt_logger := LoggerTo 0 |}
           example_world) = Some t
    ∧ token_heap
        (set_token 1%positive
           {| key := "a@x.com"; tsd := {[ 600000000000 := 120 ]};
              count := 120; sliceCount := 1; rlt_logger := LoggerTo 0 |}
           example_world) !! t = Some rlt
    ∧ Count rlt ≤ lim.
Proof.
  apply (accepted_count_within_limit example_window "a@x.com" 70
           example_now example_world
           (set_token 1%positive
              {| key := "a@x.com"; tsd := {[ 600000000000 := 120 ]};
                 count := 120; sliceCount := 1; rlt_logger := LoggerTo 0 |}
              example_world)).
  - vm_compute. reflexivity.
  - vm_compute. reflexivity.
Defined.

(** ** Senders do not interfere *)

(** X5: a call touches the caller's sender only.  On a registry whose
    tokens sit under their own keys, a call of [RateLimit] that returns
    removes no registration, and for every other sender leaves the
    registration and the registered token as they were. *)
Theorem other_senders_untouched
    (rsw : RatelimitSlidingWindow) (q : loc) (sender : string) (recips : Z)
    (now : Time) (w : World) (s : string) (w' : World) :
  rsw_tokens rsw = Some q →
  registry_ok q w →
  RateLimit rsw sender recips now w = Ok (s, w') →
  (∀ k t, registered (Some q) k w = Some t →
          registered (Some q) k w' = Some t)
  ∧ (∀ k, k ≠ sender →
          registered (Some q) k w' = registered (Some q) k w
          ∧ ∀ t, registered (Some q) k w = Some t →
                 token_heap w' !! t = token_heap w !! t).
Proof.
  intros Hp Hok Hrun.
  pose proof (RateLimit_returns_has_logger _ _ _ _ _ _ _ Hrun) as Hl.
  destruct (whitelisted rsw sender) eqn:Hwl.
  { rewrite RateLimit_whitelisted in Hrun by done. by injection Hrun as <- <-. }
  destruct (RateLimit_inv _ _ _ _ _ _ _ Hwl Hrun)
    as (_ & lim & t & w1 & rlt0 & rlt1 & _ & Htok & Ht & _ & Hcase).
  rewrite Hp in Htok.
  destruct (Token_step q sender w Hok)
    as (t0 & w0 & Htok0 & Hok1 & Hreg & Hkeep & Hheap & Hfresh).
  rewrite Htok in Htok0. injection Htok0 as <- <-.
  assert (∃ rlt, w' = set_token t rlt w1) as [rlt ->].
  { destruct Hcase as [(_ & _ & ->)|(_ & _ & rlt2 & _ & ->)]; eauto. }
  split.
  - intros k t' Hk. rewrite registered_set_token. by apply Hkeep.
  - intros k Hne. rewrite registered_set_token.
    assert (registered (Some q) k w1 = registered (Some q) k w) as Hsame.
    { destruct (registered (Some q) sender w) as [t0|].
      - by destruct Hfresh as [_ ->].
      - destruct Hfresh as (_ & _ & Hothers). by apply Hothers. }
    split; [done|]. intros t' Hk.
    assert (t' ≠ t) as Hnet.
    { intros ->. apply Hne. apply (registry_ok_inj q w1 k sender t Hok1);
        [by rewrite Hsame|done]. }
    unfold set_token. simpl. rewrite lookup_insert_ne by done.
    destruct (registered (Some q) sender w) as [t0|].
    + by destruct Hfresh as [_ ->].
    + destruct Hfresh as (_ & -> & _). rewrite lookup_insert_ne; done.
Qed.

Lemma other_senders_untouched_witness :
  registered (Some 1%positive) "u@odd.com"
    (set_token 1%positive
       {| key := "a@x.com"; tsd := {[ 600000000000 := 120 ]};
          count := 120; sliceCount := 1; rlt_logger := LoggerTo 0 |}
       example_world)
  = registered (Some 1%positive) "u@odd.com" example_world.
Proof.
  apply (other_senders_untouched example_window 1%positive "a@x.com" 70
           example_now example_world permit).
  - reflexivity.
  - exact example_registry_ok.
  - vm_compute. reflexivity.
  - discriminate.
Defined.

(** ** Senders seen for the first time *)

Lemma Token_new q rlm k w :
  map_heap w !! q = Some rlm →
  rlm_tokens rlm !! k = None →
  let t := fresh (dom (token_heap w)) in
  let rlt := rlt_SetLogger (rlm_logger rlm) (NewRatelimitToken k) in
  let w1 :=
    {| token_heap := <[t := rlt]> (token_heap w);
       map_heap :=
         <[q := {| rlm_tokens := <[k := t]> (rlm_tokens rlm);
                   rlm_logger := rlm_logger rlm |}]> (map_heap w) |} in
  Token (Some q) k w = Ok (t, w1)
  ∧ token_heap w !! t = None
  ∧ token_heap w1 !! t = Some rlt.
Proof.
  intros Hq Hk t rlt w1. rewrite (Token_ok q rlm k w Hq).
  unfold Token_result. rewrite Hk. split; [done|].
  split; [apply fresh_token_loc|]. unfold w1. simpl.
  by rewrite lookup_insert_eq.
Qed.

Lemma Prune_new_token lim l k :
  Prune lim (rlt_SetLogger l (NewRatelimitToken k))
  = Ok (rlt_SetLogger l (NewRatelimitToken k)).
Proof. apply Prune_nothing_stale, map_Forall_empty. Qed.

(** X6: a deferred message of an unknown sender leaves a token behind.  For
    a sender that is not whitelisted and not registered, whose recipient
    count alone is over the limit, [RateLimit] returns the defer string,
    and yet a token has been allocated and registered for the sender: the
    registry grows with rejected traffic too. *)
Theorem deferred_new_sender_is_registered
    (rsw : RatelimitSlidingWindow) (q : loc) (rlm : RatelimitTokenMap)
    (sender : string) (recips : Z) (now : Time) (w : World) (lim : Z) :
  has_logger (rsw_logger rsw) →
  whitelisted rsw sender = false →
  rsw_tokens rsw = Some q →
  map_heap w !! q = Some rlm →
  registered (Some q) sender w = None →
  messagelimit rsw (sender_domain sender) = Ok lim →
  lim < int_add 0 (normalized recips) →
  ∃ t w',
    RateLimit rsw sender recips now w = Ok (defer rsw, w')
    ∧ token_heap w !! t = None
    ∧ registered (Some q) sender w' = Some t
    ∧ token_heap w' !! t
      = Some (rlt_SetLogger (rlm_logger rlm) (NewRatelimitToken sender)).
Proof.
  intros Hl Hwl Hp Hq Hreg Hlim Hover.
  assert (rlm_tokens rlm !! sender = None) as Hk.
  { unfold registered in Hreg. simpl in Hreg. by rewrite Hq in Hreg. }
  destruct (Token_new q rlm sender w Hq Hk) as (Htok & Hfresh & Ht).
  rewrite <- Hp in Htok.
  pose proof (RateLimit_run rsw sender recips now w lim _ _ _ _
                Hl Hwl Hlim Htok Ht (Prune_new_token _ _ _)) as Hrun.
  change (Count (rlt_SetLogger (rlm_logger rlm) (NewRatelimitToken sender)))
    with 0 in Hrun.
  apply Z.ltb_lt in Hover. rewrite Hover in Hrun.
  eexists _, _. split; [exact Hrun|]. split; [exact Hfresh|].
  split.
  - rewrite registered_set_token. rewrite <- Hp.
    exact (Token_registers _ _ _ _ _ Htok).
  - unfold set_token. simpl. by rewrite lookup_insert_eq.
Qed.

Lemma deferred_new_sender_is_registered_witness :
  ∃ t w',
    RateLimit example_window "new@x.com" 500 example_now example_world
    = Ok (defer example_window, w')
    ∧ token_heap example_world !! t = None
    ∧ registered (Some 1%positive) "new@x.com" w' = Some t
    ∧ token_heap w' !! t
      = Some (rlt_SetLogger (LoggerTo 0) (NewRatelimitToken "new@x.com")).
Proof.
  apply (deferred_new_sender_is_registered example_window 1%positive
           {| rlm_tokens :=
                {[ "a@x.com" := 1%positive; "u@odd.com" := 2%positive ]};
              rlm_logger := LoggerTo 0 |}
           "new@x.com" 500 example_now example_world 120).
  - vm_compute. discriminate.
  - vm_compute. reflexivity.
  - reflexivity.
  - vm_compute. reflexivity.
  - vm_compute. reflexivity.
  - vm_compute. reflexivity.
  - vm_compute. reflexivity.
Defined.

(** ** The window *)

Lemma pruned_all_stale lim rlt :
  reachable rlt →
  map_Forall (λ k _, k < lim) (tsd rlt) →
  pruned lim rlt = emptied rlt.
Proof.
  intros Hr Hall. apply token_determined.
  - by apply pruned_inv, run_op_inv_reachable.
  - by apply pruned_slice_inv, reachable_slice_inv.
  - unfold token_inv, emptied. simpl. by rewrite sum_values_empty.
  - unfold slice_inv, emptied. simpl. by rewrite map_size_empty.
  - by rewrite pruned_key.
  - rewrite pruned_tsd. simpl. apply map_empty_filter_2.
    intros k v Hk. specialize (Hall k v Hk). unfold live. simpl in *. lia.
  - by rewrite pruned_logger.
Qed.

(** [RateLimit] on a token all of whose buckets are before the cutoff. *)
Lemma RateLimit_all_stale rsw sender recips now w lim t w1 rlt0 :
  has_logger (rsw_logger rsw) →
  whitelisted rsw sender = false →
  messagelimit rsw (sender_domain sender) = Ok lim →
  Token (rsw_tokens rsw) sender w = Ok (t, w1) →
  token_heap w1 !! t = Some rlt0 →
  reachable rlt0 →
  has_logger (rlt_logger rlt0) →
  map_Forall (λ k _, k < Add now (interval rsw)) (tsd rlt0) →
  RateLimit rsw sender recips now w
  = if lim <? int_add 0 (normalized recips)
    then Ok (defer rsw, set_token t (emptied rlt0) w1)
    else Ok (permit,
             set_token t
               {| key := key rlt0;
                  tsd := {[ Truncate now Minute := normalized recips ]};
                  count := int_add 0 (normalized recips);
                  sliceCount := 1;
                  rlt_logger := rlt_logger rlt0 |} w1).
Proof.
  intros Hl Hwl Hlim Htok Ht Hr Hl0 Hall.
  rewrite (RateLimit_run rsw sender recips now w lim t w1 rlt0
             (emptied rlt0) Hl Hwl Hlim Htok Ht).
  - rewrite RecordMessage_ok by done. done.
  - rewrite (Prune_ok _ _ Hl0). f_equal. by apply pruned_all_stale.
Qed.

(** X7: past the window a sender starts from zero.  When every bucket of
    the sender's token is before the cutoff of the call, the decision is
    made on the recipient count of the message alone, and what is left of
    the token is no bucket (deferred) or the one bucket of this message
    (permitted), whatever the token had counted. *)
Theorem stale_token_starts_from_zero
    (rsw : RatelimitSlidingWindow) (sender : string) (recips : Z)
    (now : Time) (w : World) (lim : Z) (t : loc) (w1 : World)
    (rlt0 : RatelimitToken) :
  has_logger (rsw_logger rsw) →
  whitelisted rsw sender = false →
  messagelimit rsw (sender_domain sender) = Ok lim →
  Token (rsw_tokens rsw) sender w = Ok (t, w1) →
  token_heap w1 !! t = Some rlt0 →
  reachable rlt0 →
  has_logger (rlt_logger rlt0) →
  map_Forall (λ k _, k < Add now (interval rsw)) (tsd rlt0) →
  RateLimit rsw sender recips now w
  = if lim <? int_add 0 (normalized recips)
    then Ok (defer rsw, set_token t (emptied rlt0) w1)
    else Ok (permit,
             set_token t
               {| key := key rlt0;
                  tsd := {[ Truncate now Minute := normalized recips ]};
                  count := int_add 0 (normalized recips);
                  sliceCount := 1;
                  rlt_logger := rlt_logger rlt0 |} w1).
Proof. apply RateLimit_all_stale. Qed.

Lemma stale_token_starts_from_zero_witness :
  RateLimit example_window "a@x.com" 120 900000000000 example_world
  = Ok (permit,
        set_token 1%positive
          {| key := "a@x.com"; tsd := {[ 900000000000 := 120 ]};
             count := 120; sliceCount := 1; rlt_logger := LoggerTo 0 |}
          example_world).
Proof.
  rewrite (stale_token_starts_from_zero example_window "a@x.com" 120
             900000000000 example_world 120 1%positive example_world
             example_token).
  - vm_compute. reflexivity.
  - vm_compute. discriminate.
  - vm_compute. reflexivity.
  - vm_compute. reflexivity.
  - vm_compute. reflexivity.
  - vm_compute. reflexivity.
  - exact example_token_reachable.
  - vm_compute. discriminate.
  - apply map_Forall_insert; [reflexivity|]. split; [vm_compute; reflexivity|].
    apply map_Forall_insert; [reflexivity|]. split; [vm_compute; reflexivity|].
    apply map_Forall_empty.
Defined.

(** The first accepted message of a sender. *)
Lemma first_call_permitted rsw sender recips now w lim :
  ready rsw w →
  whitelisted rsw sender = false →
  registered (rsw_tokens rsw) sender w = None →
  messagelimit rsw (sender_domain sender) = Ok lim →
  int_add 0 (normalized recips) ≤ lim →
  ∃ t w1 rlt,
    RateLimit rsw sender recips now w = Ok (permit, w1)
    ∧ Token (rsw_tokens rsw) sender w1 = Ok (t, w1)
    ∧ token_heap w1 !! t = Some rlt
    ∧ reachable rlt
    ∧ has_logger (rlt_logger rlt)
    ∧ tsd rlt = {[ Truncate now Minute := normalized recips ]}
    ∧ Count rlt = int_add 0 (normalized recips).
Proof.
  intros Hready Hwl Hreg Hlim Hfits.
  pose proof Hready as (Hl & q & rlm & Hp & Hq & Hlm & _).
  rewrite Hp in *.
  assert (rlm_tokens rlm !! sender = None) as Hk.
  { unfold registered in Hreg. simpl in Hreg. by rewrite Hq in Hreg. }
  destruct (Token_new q rlm sender w Hq Hk) as (Htok & Hfresh & Ht).
  set (r0 := rlt_SetLogger (rlm_logger rlm) (NewRatelimitToken sender)) in *.
  assert (reachable r0) as Hr0.
  { apply (reachable_step (NewRatelimitToken sender)
             (OpSetLogger (rlm_logger rlm))); [apply reachable_new|done]. }
  rewrite <- Hp in Htok.
  pose proof (RateLimit_run rsw sender recips now w lim _ _ _ _
                Hl Hwl Hlim Htok Ht (Prune_new_token _ _ _)) as Hrun.
  fold r0 in Hrun. change (Count r0) with 0 in Hrun.
  apply Z.ltb_ge in Hfits. rewrite Hfits in Hrun.
  rewrite RecordMessage_ok in Hrun by done. simpl in Hrun.
  eexists _, _, _. split; [exact Hrun|]. split.
  - apply Token_registered. rewrite registered_set_token.
    pose proof (Token_registers _ _ _ _ _ Htok) as Hregd.
    by rewrite Hp in Hregd.
  - split; [unfold set_token; simpl; by rewrite lookup_insert_eq|].
    split.
    + apply (reachable_step r0 (OpRecordMessage now (normalized recips)));
        [done|]. simpl. by apply RecordMessage_ok.
    + repeat split; done.
Qed.

(** X8: a burst across the start of a minute.  A bucket is dropped as soon
    as the cutoff passes the start of its minute, though the messages in
    it may be newer than the cutoff.  So for a sender seen for the first
    time, a message within the limit is accepted, and a second message
    within the limit is accepted too whenever the cutoff of the second call
    is past the start of the minute of the first: with a window of 60
    seconds, a message at second 59 of a minute and another two seconds
    later, each of as many recipients as the limit allows. *)
Theorem burst_across_a_minute
    (rsw : RatelimitSlidingWindow) (sender : string) (r1 r2 : Z)
    (now1 now2 : Time) (w : World) (lim : Z) :
  ready rsw w →
  whitelisted rsw sender = false →
  registered (rsw_tokens rsw) sender w = None →
  messagelimit rsw (sender_domain sender) = Ok lim →
  int_add 0 (normalized r1) ≤ lim →
  int_add 0 (normalized r2) ≤ lim →
  Truncate now1 Minute < Add now2 (interval rsw) →
  ∃ w1 w2,
    RateLimit rsw sender r1 now1 w = Ok (permit, w1)
    ∧ RateLimit rsw sender r2 now2 w1 = Ok (permit, w2).
Proof.
  intros Hready Hwl Hreg Hlim Hfits1 Hfits2 Hpast.
  destruct (first_call_permitted rsw sender r1 now1 w lim)
    as (t & w1 & rlt & Hrun1 & Htok & Ht & Hr & Hlt & Htsd & _); try done.
  exists w1. eexists. split; [exact Hrun1|].
  rewrite (RateLimit_all_stale rsw sender r2 now2 w1 lim t w1 rlt);
    try done.
  - apply Z.ltb_ge in Hfits2. by rewrite Hfits2.
  - exact (proj1 Hready).
  - rewrite Htsd. apply map_Forall_singleton. exact Hpast.
Qed.

Lemma burst_across_a_minute_witness :
  ∃ w1 w2,
    RateLimit example_window "new@x.com" 120 659000000000 example_world
    = Ok (permit, w1)
    ∧ RateLimit example_window "new@x.com" 120 661000000000 w1
      = Ok (permit, w2).
Proof.
  apply (burst_across_a_minute example_window "new@x.com" 120 120
           659000000000 661000000000 example_world 120).
  - exact example_ready.
  - vm_compute. reflexivity.
  - vm_compute. reflexivity.
  - vm_compute. reflexivity.
  - vm_compute. discriminate.
  - vm_compute. discriminate.
  - vm_compute. reflexivity.
Defined.

(** ** Loggers of tokens *)

(** X9: a token without a logger is never credited.  [Token] gives a new
    token the logger the registry has at that time; [AddToken] registers a
    token as it is.  For a sender whose token has no logger, [RateLimit]
    never permits: it panics where it would record the message (or remove
    a bucket), and can only defer.  So on a registry that never got a
    logger, even with a logger on the controller, a first message is
    deferred when it is over the limit and is a panic otherwise. *)
Theorem token_without_logger_is_never_credited
    (rsw : RatelimitSlidingWindow) (sender : string) (recips : Z)
    (now : Time) (w : World) :
  whitelisted rsw sender = false →
  (∀ t w1 rlt0,
     Token (rsw_tokens rsw) sender w = Ok (t, w1) →
     token_heap w1 !! t = Some rlt0 →
     rlt_logger rlt0 = NilLogger →
     ∀ w', RateLimit rsw sender recips now w ≠ Ok (permit, w'))
  ∧ (∀ q rlm lim,
       has_logger (rsw_logger rsw) →
       rsw_tokens rsw = Some q →
       map_heap w !! q = Some rlm →
       rlm_logger rlm = NilLogger →
       registered (Some q) sender w = None →
       messagelimit rsw (sender_domain sender) = Ok lim →
       int_add 0 (normalized recips) ≤ lim →
       RateLimit rsw sender recips now w = Panic).
Proof.
  intros Hwl. split.
  - intros t w1 rlt0 Htok Ht Hnil w' Hrun.
    destruct (RateLimit_inv _ _ _ _ _ _ _ Hwl Hrun)
      as (_ & lim & t' & w1' & rlt0' & rlt1 & _ & Htok' & Ht' & Hpr & Hcase).
    rewrite Htok in Htok'. injection Htok' as <- <-.
    rewrite Ht in Ht'. injection Ht' as <-.
    destruct Hcase as [(_ & Hs & _)|(_ & _ & rlt2 & Hrec & _)].
    { by destruct (permit_not_defer rsw). }
    rewrite RecordMessage_nil in Hrec; [done|].
    by rewrite (Prune_pruned _ _ _ Hpr), pruned_logger.
  - intros q rlm lim Hl Hp Hq Hnil Hreg Hlim Hfits.
    assert (rlm_tokens rlm !! sender = None) as Hk.
    { unfold registered in Hreg. simpl in Hreg. by rewrite Hq in Hreg. }
    destruct (Token_new q rlm sender w Hq Hk) as (Htok & _ & Ht).
    rewrite <- Hp in Htok.
    rewrite (RateLimit_run rsw sender recips now w lim _ _ _ _
               Hl Hwl Hlim Htok Ht (Prune_new_token _ _ _)).
    change (Count (rlt_SetLogger (rlm_logger rlm) (NewRatelimitToken sender)))
      with 0.
    apply Z.ltb_ge in Hfits. rewrite Hfits.
    rewrite RecordMessage_nil; [done|]. simpl. exact Hnil.
Qed.

Lemma token_without_logger_is_never_credited_witness :
  let w := {| token_heap := ∅;
              map_heap := {[ 1%positive :=
                               {| rlm_tokens := ∅;
                                  rlm_logger := NilLogger |} ]} |} in
  RateLimit example_window "a@x.com" 1 example_now w = Panic.
Proof.
  intros w.
  apply (proj2 (token_without_logger_is_never_credited example_window
                  "a@x.com" 1 example_now w ltac:(vm_compute; reflexivity))
           1%positive {| rlm_tokens := ∅; rlm_logger := NilLogger |} 120).
  - vm_compute. discriminate.
  - reflexivity.
  - vm_compute. reflexivity.
  - reflexivity.
  - vm_compute. reflexivity.
  - vm_compute. reflexivity.
  - vm_compute. discriminate.
Defined.

(** ** [AddToken] *)

(** X10: [AddToken], then [Token].  [AddToken] puts a token of the heap
    into the registry under the token's own key, whatever was registered
    there: a following [Token] for that key returns the added token and
    changes nothing, the other keys keep their tokens, and no token of the
    heap is touched. *)
Theorem added_token_is_returned
    (q : loc) (rlm : RatelimitTokenMap) (t : loc) (rlt : RatelimitToken)
    (w : World) :
  map_heap w !! q = Some rlm →
  token_heap w !! t = Some rlt →
  ∃ w',
    AddToken (Some q) t w = Ok (tt, w')
    ∧ Token (Some q) (Key rlt) w' = Ok (t, w')
    ∧ token_heap w' = token_heap w
    ∧ ∀ k, k ≠ Key rlt → registered (Some q) k w' = registered (Some q) k w.
Proof.
  intros Hq Ht. eexists. split.
  { unfold AddToken. erewrite bind_run; [|by unfold load_map; rewrite Hq].
    simpl. erewrite bind_run; [|by unfold load_token; rewrite Ht]. done. }
  split; [|split; [done|]].
  - apply Token_registered. unfold registered. simpl.
    rewrite lookup_insert_eq. simpl. by rewrite lookup_insert_eq.
  - intros k Hne. unfold registered. simpl. rewrite lookup_insert_eq, Hq.
    simpl. by rewrite lookup_insert_ne.
Qed.

Lemma added_token_is_returned_witness :
  ∃ w',
    AddToken (Some 1%positive) 2%positive
      {| token_heap :=
           {[ 1%positive := example_token;
              2%positive := example_token_pruned ]};
         map_heap :=
           {[ 1%positive :=
                {| rlm_tokens := {[ "a@x.com" := 1%positive ]};
                   rlm_logger := LoggerTo 0 |} ]} |} = Ok (tt, w')
    ∧ Token (Some 1%positive) "a@x.com" w' = Ok (2%positive, w').
Proof.
  destruct (added_token_is_returned 1%positive
              {| rlm_tokens := {[ "a@x.com" := 1%positive ]};
                 rlm_logger := LoggerTo 0 |}
              2%positive example_token_pruned
              {| token_heap :=
                   {[ 1%positive := example_token;
                      2%positive := example_token_pruned ]};
                 map_heap :=
                   {[ 1%positive :=
                        {| rlm_tokens := {[ "a@x.com" := 1%positive ]};
                           rlm_logger := LoggerTo 0 |} ]} |})
    as (w' & Hadd & Htok & _).
  - vm_compute. reflexivity.
  - vm_compute. reflexivity.
  - exists w'. split; [exact Hadd|exact Htok].
Defined.

(** ** The tokens of the heap *)

Lemma Token_heap_reachable p k w t w1 :
  Token p k w = Ok (t, w1) → heap_reachable w → heap_reachable w1.
Proof.
  intros Htok Hw.
  destruct (Token_inv _ _ _ _ _ Htok) as (q & rlm & -> & Hq & Hres).
  unfold Token_result in Hres.
  destruct (rlm_tokens rlm !! k); injection Hres as <- <-; [done|].
  intros t' rlt'. simpl. intros Ht'.
  apply lookup_insert_Some in Ht' as [[_ <-]|[_ Ht']]; [|by eapply Hw].
  apply (reachable_step (NewRatelimitToken k) (OpSetLogger (rlm_logger rlm)));
    [apply reachable_new|done].
Qed.

Lemma set_token_heap_reachable t rlt w :
  reachable rlt → heap_reachable w → heap_reachable (set_token t rlt w).
Proof.
  intros Hr Hw t' rlt'. unfold set_token. simpl. intros Ht'.
  apply lookup_insert_Some in Ht' as [[_ <-]|[_ Ht']]; [done|by eapply Hw].
Qed.

(** X11: the controller keeps the tokens sound.  If every token of the heap
    is in a state a token can reach, so is every token after a call of
    [RateLimit] that returns; in particular [count] is the sum of the
    buckets, in [int], for every token of the heap afterwards. *)
Theorem rate_limit_keeps_tokens_reachable
    (rsw : RatelimitSlidingWindow) (sender : string) (recips : Z)
    (now : Time) (w : World) (s : string) (w' : World) :
  heap_reachable w →
  RateLimit rsw sender recips now w = Ok (s, w') →
  heap_reachable w'
  ∧ ∀ t rlt, token_heap w' !! t = Some rlt →
             count rlt = wrap (sum_values (tsd rlt)).
Proof.
  intros Hw Hrun.
  assert (heap_reachable w') as Hw'.
  { pose proof (RateLimit_returns_has_logger _ _ _ _ _ _ _ Hrun) as Hl.
    destruct (whitelisted rsw sender) eqn:Hwl.
    { rewrite RateLimit_whitelisted in Hrun by done.
      by injection Hrun as <- <-. }
    destruct (RateLimit_inv _ _ _ _ _ _ _ Hwl Hrun)
      as (_ & lim & t & w1 & rlt0 & rlt1 & _ & Htok & Ht & Hpr & Hcase).
    pose proof (Token_heap_reachable _ _ _ _ _ Htok Hw) as Hw1.
    assert (reachable rlt1) as Hr1.
    { apply (reachable_step rlt0 (OpPrune (Add now (interval rsw))));
        [by eapply Hw1|done]. }
    destruct Hcase as [(_ & _ & ->)|(_ & _ & rlt2 & Hrec & ->)].
    - by apply set_token_heap_reachable.
    - apply set_token_heap_reachable; [|done].
      by apply (reachable_step rlt1
                  (OpRecordMessage now (normalized recips))). }
  split; [done|]. intros t rlt Ht.
  apply run_op_inv_reachable. by eapply Hw'.
Qed.

Lemma example_heap_reachable : heap_reachable example_world.
Proof.
  intros t rlt Ht. unfold example_world in Ht. cbn [token_heap] in Ht.
  apply lookup_insert_Some in Ht as [[_ <-]|[_ Ht]].
  - exact example_token_reachable.
  - apply lookup_singleton_Some in Ht as [_ <-].
    apply (reachable_step (NewRatelimitToken "u@odd.com")
             (OpSetLogger (LoggerTo 0))); [apply reachable_new|reflexivity].
Qed.

Lemma rate_limit_keeps_tokens_reachable_witness :
  heap_reachable
    (set_token 1%positive
       {| key := "a@x.com"; tsd := {[ 600000000000 := 120 ]};
          count := 120; sliceCount := 1; rlt_logger := LoggerTo 0 |}
       example_world).
Proof.
  apply (rate_limit_keeps_tokens_reachable example_window "a@x.com" 70
           example_now example_world permit).
  - exact example_heap_reachable.
  - vm_compute. reflexivity.
Defined.

(** ** Raising the limit *)

Lemma effective_limit_raised l rsw domain :
  defaultLimit rsw ≤ l →
  effective_limit rsw domain
  ≤ effective_limit
      {| defaultLimit := l; deferMessage := deferMessage rsw;
         interval := interval rsw; whiteList := whiteList rsw;
         domainList := domainList rsw; rsw_tokens := rsw_tokens rsw;
         rsw_logger := rsw_logger rsw |} domain.
Proof.
  intros Hle. unfold effective_limit. simpl.
  destruct (domainList rsw !! domain); [lia|done].
Qed.

(** X12: raising the default limit.  After [SetDefaultLimit] with a limit
    that is not lower, every call that [RateLimit] permitted is permitted
    still, with the same effect on the heap; the counts recorded so far
    are not touched by the setter. *)
Theorem raising_default_limit_keeps_permits
    (l : Z) (rsw rsw' : RatelimitSlidingWindow) (sender : string)
    (recips : Z) (now : Time) (w w' : World) :
  SetDefaultLimit l rsw = Ok rsw' →
  defaultLimit rsw ≤ l →
  RateLimit rsw sender recips now w = Ok (permit, w') →
  RateLimit rsw' sender recips now w = Ok (permit, w').
Proof.
  intros Hset Hle Hrun. injection Hset as <-.
  pose proof (RateLimit_returns_has_logger _ _ _ _ _ _ _ Hrun) as Hl.
  set (rsw' := {| defaultLimit := l; deferMessage := deferMessage rsw;
                  interval := interval rsw; whiteList := whiteList rsw;
                  domainList := domainList rsw; rsw_tokens := rsw_tokens rsw;
                  rsw_logger := rsw_logger rsw |}).
  assert (whitelisted rsw' sender = whitelisted rsw sender) as Hsame by done.
  destruct (whitelisted rsw sender) eqn:Hwl.
  { rewrite RateLimit_whitelisted in Hrun by done.
    by rewrite RateLimit_whitelisted. }
  destruct (RateLimit_inv _ _ _ _ _ _ _ Hwl Hrun)
    as (_ & lim & t & w1 & rlt0 & rlt1 & Hlim & Htok & Ht & Hpr & Hcase).
  destruct Hcase as [(_ & Hs & _)|(Hfits & _ & rlt2 & Hrec & ->)].
  { by destruct (permit_not_defer rsw). }
  rewrite (messagelimit_ok _ _ Hl) in Hlim. injection Hlim as <-.
  rewrite (RateLimit_run rsw' sender recips now w _ t w1 rlt0 rlt1
             Hl Hsame (messagelimit_ok rsw' _ Hl) Htok Ht Hpr).
  pose proof (effective_limit_raised l rsw (sender_domain sender) Hle).
  fold rsw' in H.
  destruct (Z.ltb_spec (effective_limit rsw' (sender_domain sender))
              (int_add (Count rlt1) (normalized recips))); [lia|].
  by rewrite Hrec.
Qed.

Lemma raising_default_limit_keeps_permits_witness :
  ∃ rsw',
    SetDefaultLimit 500 example_window = Ok rsw'
    ∧ RateLimit rsw' "a@x.com" 70 example_now example_world
      = Ok (permit,
            set_token 1%positive
              {| key := "a@x.com"; tsd := {[ 600000000000 := 120 ]};
                 count := 120; sliceCount := 1; rlt_logger := LoggerTo 0 |}
              example_world).
Proof.
  eexists. split; [reflexivity|].
  apply (raising_default_limit_keeps_permits 500 example_window).
  - reflexivity.
  - vm_compute. discriminate.
  - vm_compute. reflexivity.
Defined.

(** ** The map file *)

Lemma index_panic t i : index t i = Panic ↔ (length t ≤ i)%nat.
Proof.
  unfold index. destruct (t !! i) as [x|] eqn:Hi.
  - apply lookup_lt_Some in Hi. split; [done|lia].
  - apply lookup_ge_None in Hi. done.
Qed.

Lemma index_take t i n : (i < n)%nat → index (take n t) i = index t i.
Proof. intros Hi. unfold index. by rewrite lookup_take_lt. Qed.

Lemma load_lines_panic lines res :
  load_lines lines res = Panic ↔ Exists short_line lines.
Proof.
  revert res. induction lines as [|line lines IH]; intros res; simpl.
  { split; [done|]. by intros H%Exists_nil. }
  rewrite Exists_cons. unfold short_line at 1.
  destruct (index (Fields line) 0) as [k|] eqn:H0; simpl.
  - destruct (index (Fields line) 1) as [v|] eqn:H1; simpl.
    + rewrite IH. split; [by right|]. intros [Hshort|?]; [|done].
      unfold index in H1. destruct (Fields line !! 1%nat) eqn:Hl; [|done].
      apply lookup_lt_Some in Hl. lia.
    + apply index_panic in H1. split; [intros _; left; lia|done].
  - apply index_panic in H0. split; [intros _; left; lia|done].
Qed.

Lemma Fields_blank s : blank s = true → Fields s = [].
Proof.
  unfold Fields. induction s as [|c s IH]; simpl; [done|].
  intros [Hc Hs]%andb_true_iff. rewrite Hc. by apply IH.
Qed.

(** X13: a short line stops the loader.  [Load] panics exactly when one of
    the lines of the file has fewer than two fields, as every blank line
    has: the index into the fields is out of range.  When there is no file
    the result is nil, without panic. *)
Theorem load_panics_on_short_line (lines : list string) :
  forallb ascii_only lines = true →
  (Load (Some lines) = Panic ↔ Exists short_line lines)
  ∧ (∀ line, line ∈ lines → blank line = true → Load (Some lines) = Panic)
  ∧ (Forall (λ line, ¬ short_line line) lines →
     ∃ res, Load (Some lines) = Ok (Some res))
  ∧ Load None = Ok None.
Proof.
  intros _.
  assert (Load (Some lines) = Panic ↔ Exists short_line lines) as Hiff.
  { rewrite <- (load_lines_panic lines NewMemoryMap). simpl.
    by destruct (load_lines lines NewMemoryMap). }
  split; [done|]. split; [|split; [|done]].
  - intros line Hin Hblank. apply Hiff, Exists_exists. exists line.
    split; [done|]. unfold short_line. rewrite (Fields_blank _ Hblank).
    simpl. lia.
  - intros Hall. simpl.
    destruct (load_lines lines NewMemoryMap) as [res|] eqn:Hload.
    + by exists res.
    + apply load_lines_panic, Exists_exists in Hload as (line & Hin & Hshort).
      rewrite Forall_forall in Hall. by destruct (Hall line Hin).
Qed.

Lemma load_panics_on_short_line_witness :
  Load (Some ["x.com 30"; ""; "y.com 40"]) = Panic.
Proof.
  apply (proj1 (proj2 (load_panics_on_short_line
                         ["x.com 30"; ""; "y.com 40"]
                         ltac:(vm_compute; reflexivity))) "").
  - right. left.
  - reflexivity.
Defined.

Lemma load_lines_fields lines1 lines2 res :
  key_and_value <$> lines1 = key_and_value <$> lines2 →
  load_lines lines1 res = load_lines lines2 res.
Proof.
  revert lines2 res. induction lines1 as [|l1 lines1 IH];
    intros [|l2 lines2] res Heq; try done.
  rewrite !fmap_cons in Heq. injection Heq as Hhead Htail. simpl.
  unfold key_and_value in Hhead.
  rewrite <- (index_take (Fields l1) 0 2), <- (index_take (Fields l1) 1 2),
    <- (index_take (Fields l2) 0 2), <- (index_take (Fields l2) 1 2) by lia.
  rewrite Hhead.
  destruct (index (take 2 (Fields l2)) 0); simpl; [|done].
  destruct (index (take 2 (Fields l2)) 1); simpl; [|done].
  by apply IH.
Qed.

(** X14: what of a line counts.  [Load] reads the first two fields of each
    line and nothing else: two files whose lines agree on their first two
    fields load alike, so white space around the fields and whatever
    follows the value are of no effect. *)
Theorem load_reads_two_fields (lines1 lines2 : list string) :
  forallb ascii_only lines1 = true →
  forallb ascii_only lines2 = true →
  key_and_value <$> lines1 = key_and_value <$> lines2 →
  Load (Some lines1) = Load (Some lines2).
Proof.
  intros _ _ Heq. simpl.
  by rewrite (load_lines_fields lines1 lines2 NewMemoryMap Heq).
Qed.

Lemma load_reads_two_fields_witness :
  Load (Some ["  x.com   30  # thirty"; "y.com 40"])
  = Load (Some ["x.com 30"; "y.com 40 per minute"]).
Proof.
  apply load_reads_two_fields; vm_compute; reflexivity.
Defined.

(** ** An interval that does not parse *)

(** X15: a failed [SetInterval] opens the window.  When the interval does
    not parse, [SetInterval] writes its log line and sets the interval to
    0, whatever it was before.  The cutoff of a call is then the time of
    the call: at a time that is not the start of a minute, every bucket
    recorded up to the current minute is before the cutoff, and the
    decision is made on the recipient count of the message alone. *)
Theorem failed_set_interval_forgets_the_past
    (ParseDuration : string → option Duration) (i : string)
    (rsw rsw' : RatelimitSlidingWindow) (sender : string) (recips : Z)
    (now : Time) (w : World) (lim : Z) (t : loc) (w1 : World)
    (rlt0 : RatelimitToken) :
  ParseDuration (i +:+ "s") = None →
  SetInterval ParseDuration i rsw = Ok rsw' →
  whitelisted rsw' sender = false →
  messagelimit rsw' (sender_domain sender) = Ok lim →
  Token (rsw_tokens rsw') sender w = Ok (t, w1) →
  token_heap w1 !! t = Some rlt0 →
  reachable rlt0 →
  has_logger (rlt_logger rlt0) →
  map_Forall (λ k _, k ≤ Truncate now Minute) (tsd rlt0) →
  Truncate now Minute < now →
  interval rsw' = 0
  ∧ RateLimit rsw' sender recips now w
    = if lim <? int_add 0 (normalized recips)
      then Ok (defer rsw', set_token t (emptied rlt0) w1)
      else Ok (permit,
               set_token t
                 {| key := key rlt0;
                    tsd := {[ Truncate now Minute := normalized recips ]};
                    count := int_add 0 (normalized recips);
                    sliceCount := 1;
                    rlt_logger := rlt_logger rlt0 |} w1).
Proof.
  intros Hparse Hset Hwl Hlim Htok Ht Hr Hl0 Hpast Hmid.
  unfold SetInterval in Hset. rewrite Hparse in Hset. simpl in Hset.
  destruct (rsw_logger rsw) eqn:Hl; [done|].
  simpl in Hset. injection Hset as <-. split; [done|].
  apply RateLimit_all_stale; try done.
  simpl. unfold Add. intros k v Hk. specialize (Hpast k v Hk).
  change (int_mul 0 (-1)) with 0. simpl in *. lia.
Qed.

Lemma failed_set_interval_forgets_the_past_witness :
  ∃ rsw',
    SetInterval (λ _, None) "a minute" example_window = Ok rsw'
    ∧ RateLimit rsw' "a@x.com" 120 example_now example_world
      = Ok (permit,
            set_token 1%positive
              {| key := "a@x.com"; tsd := {[ 600000000000 := 120 ]};
                 count := 120; sliceCount := 1; rlt_logger := LoggerTo 0 |}
              example_world).
Proof.
  eexists. split; [reflexivity|].
  apply (failed_set_interval_forgets_the_past (λ _, None) "a minute"
           example_window _ "a@x.com" 120 example_now example_world 120
           1%positive example_world example_token).
  - reflexivity.
  - reflexivity.
  - vm_compute. reflexivity.
  - vm_compute. reflexivity.
  - vm_compute. reflexivity.
  - vm_compute. reflexivity.
  - exact example_token_reachable.
  - vm_compute. discriminate.
  - apply map_Forall_insert; [reflexivity|]. split; [vm_compute; discriminate|].
    apply map_Forall_insert; [reflexivity|]. split; [vm_compute; discriminate|].
    apply map_Forall_empty.
  - vm_compute. reflexivity.
Defined.
